(** * MQTT client wrapper: a shallow embedding of [src/broker/mqtt_client.py]

    The development follows the layout of the Python module: the enumerations
    and data classes, then the methods of [MQTTClientWrapper].  Methods that
    mutate the client, talk to the Paho transport or may raise are written in
    a state-and-exception monad over a [World] that holds the fields of the
    client object together with the environment it interacts with (clock,
    transport replies, and a trace of the effects performed). *)

From Stdlib Require Import List String Ascii Bool Arith ZArith QArith Qminmax Qabs Qpower Lia Lqa Sorted.
Import ListNotations.

Local Open Scope string_scope.
Local Open Scope list_scope.
Local Open Scope Z_scope.

(* ------------------------------------------------------------------------- *)
(** ** Strings as Python uses them here *)

Module Py.

(** [s.split(sep)] for a one-character separator: never returns the empty
    list, [''.split('/') = ['']]. *)
Fixpoint split (sep : ascii) (s : string) : list string :=
  match s with
  | EmptyString => [EmptyString]
  | String c rest =>
      if Ascii.eqb c sep then EmptyString :: split sep rest
      else match split sep rest with
           | [] => [String c EmptyString]
           | part :: parts => String c part :: parts
           end
  end.

(** [c in s] for a one-character string [c]. *)
Fixpoint contains (c : ascii) (s : string) : bool :=
  match s with
  | EmptyString => false
  | String c' rest => Ascii.eqb c' c || contains c rest
  end.

(** [x in xs] on a list of strings. *)
Definition mem (x : string) (xs : list string) : bool :=
  existsb (String.eqb x) xs.

End Py.

Definition slash : ascii := "/"%char.

(* ------------------------------------------------------------------------- *)
(** ** Topic matcher ([MQTTClientWrapper._topic_matches]) *)

(** The [for i, pattern_part in enumerate(pattern_parts)] loop.  [Some b] is
    a [return b] from inside the loop, [None] means the loop ran to its end. *)
Fixpoint match_loop (topic_parts : list string) (i : nat)
         (pattern_parts : list string) : option bool :=
  match pattern_parts with
  | [] => None
  | pattern_part :: rest =>
      if (pattern_part =? "#")%string then Some true
      else if (List.length topic_parts <=? i)%nat then Some false
      else if negb (pattern_part =? "+")%string
              && negb (pattern_part =? nth i topic_parts "")%string
      then Some false
      else match_loop topic_parts (S i) rest
  end.

Definition _topic_matches (topic pattern : string) : bool :=
  let topic_parts := Py.split slash topic in
  let pattern_parts := Py.split slash pattern in
  if Py.mem "#" (removelast pattern_parts) then false
  else match match_loop topic_parts 0 pattern_parts with
       | Some b => b
       | None => (List.length topic_parts =? List.length pattern_parts)%nat
       end.

(** The wildcard semantics in the words of the specification, on the levels
    of topic and pattern: the four ways a pattern accepts a topic. *)
Inductive Accepts : list string -> list string -> Prop :=
| acc_exhausted : Accepts [] []
| acc_hash_final : forall levels, Accepts levels ["#"]
| acc_plus : forall level levels pattern,
    Accepts levels pattern -> Accepts (level :: levels) ("+" :: pattern)
| acc_literal : forall level levels pattern,
    level <> "#" ->
    Accepts levels pattern -> Accepts (level :: levels) (level :: pattern).

Definition levels (s : string) : list string := Py.split slash s.

(** A pattern is malformed when ["#"] occurs in a level that is not the last. *)
Definition hash_not_final (pattern : string) : Prop :=
  In "#" (removelast (levels pattern)).

(* ------------------------------------------------------------------------- *)
(** ** Enumerations *)

Module ConnectionState.
Inductive t := DISCONNECTED | CONNECTING | CONNECTED | RECONNECTING | ERROR.
End ConnectionState.

(** [mqtt.MQTT_ERR_SUCCESS] *)
Definition MQTT_ERR_SUCCESS : Z := 0.

(* ------------------------------------------------------------------------- *)
(** ** Data classes *)

(** The options of [MQTTConfig] that the methods below read. *)
Module MQTTConfig.
Record t := {
  broker_host : string;
  broker_port : Z;
  keepalive : Z;
  auto_reconnect : bool;
  reconnect_delay : Z;
  max_reconnect_delay : Z;
  queue_size : Z;
  message_timeout : Z
}.
(** The defaults of the data class. *)
Definition default : t :=
  {| broker_host := "localhost"; broker_port := 1883; keepalive := 60;
     auto_reconnect := true; reconnect_delay := 5; max_reconnect_delay := 120;
     queue_size := 1000; message_timeout := 30 |}.
End MQTTConfig.

(** What a callback receives as [payload_data]: the value [json.loads]
    produced, or the decoded text when the payload is not JSON. *)
Inductive PayloadData :=
| Parsed (value : string)
| Text (text : string).

(** A user callback is a Python callable.  Of its behaviour the client only
    observes whether the call returns or raises (an [Exception]); the
    identifier lets the trace say which callback ran. *)
Inductive Outcome := Returns | Throws.

Record Callback := {
  cb_id : nat;
  cb_run : string -> PayloadData -> Outcome
}.

Module Subscription.
Record t := {
  topic : string;
  qos : Z;
  callback : option Callback
}.
End Subscription.

Module QueuedMessage.
Record t := {
  topic : string;
  payload : string;
  qos : Z;
  retain : bool;
  timestamp : Q
}.
End QueuedMessage.

(** The [payload: Any] argument of [publish]: a dict or list goes through
    [json.dumps] (which raises on values it cannot serialise, [None] here),
    anything else through [str]. *)
Inductive Payload :=
| Structured (dumps : option string)
| Scalar (str : string).

(** What [json.loads] does with a text: it returns the value, it raises
    [JSONDecodeError] (the text is not JSON), or it raises another exception
    ([ValueError] for an integer literal beyond the digit limit of the
    interpreter, [RecursionError] for brackets nested too deep). *)
Module json.
Inductive loads := Value (value : string) | NotJson | Refused.
End json.

(** An inbound Paho message as [_on_message] reads it: [decoded] is the
    result of [message.payload.decode('utf-8')] ([None]: the bytes are not
    UTF-8 and the call raises), [parsed] what [json.loads] does with the
    decoded text. *)
Module MQTTMessage.
Record t := {
  topic : string;
  decoded : option string;
  parsed : json.loads
}.
End MQTTMessage.

(** [self.stats] *)
Module Stats.
Record t := {
  messages_sent : Z;
  messages_received : Z;
  messages_queued : Z;
  reconnect_count : Z;
  errors : Z
}.
Definition zero : t := Build_t 0 0 0 0 0.
Definition incr_messages_sent (s : t) : t :=
  Build_t (messages_sent s + 1) (messages_received s) (messages_queued s)
          (reconnect_count s) (errors s).
Definition incr_messages_received (s : t) : t :=
  Build_t (messages_sent s) (messages_received s + 1) (messages_queued s)
          (reconnect_count s) (errors s).
Definition incr_messages_queued (s : t) : t :=
  Build_t (messages_sent s) (messages_received s) (messages_queued s + 1)
          (reconnect_count s) (errors s).
Definition incr_reconnect_count (s : t) : t :=
  Build_t (messages_sent s) (messages_received s) (messages_queued s)
          (reconnect_count s + 1) (errors s).
Definition incr_errors (s : t) : t :=
  Build_t (messages_sent s) (messages_received s) (messages_queued s)
          (reconnect_count s) (errors s + 1).
End Stats.

(** A Python [dict] keyed by strings: insertion-ordered, keys unique;
    assigning to a present key keeps its position. *)
Module Dict.
Section WithValue.
Context {V : Type}.
Definition t := list (string * V).

Fixpoint get (k : string) (d : t) : option V :=
  match d with
  | [] => None
  | (k', v) :: rest => if (k' =? k)%string then Some v else get k rest
  end.

Fixpoint set (k : string) (v : V) (d : t) : t :=
  match d with
  | [] => [(k, v)]
  | (k', v') :: rest =>
      if (k' =? k)%string then (k, v) :: rest else (k', v') :: set k v rest
  end.

Fixpoint del (k : string) (d : t) : t :=
  match d with
  | [] => []
  | (k', v') :: rest =>
      if (k' =? k)%string then rest else (k', v') :: del k rest
  end.
End WithValue.
Arguments t : clear implicits.
End Dict.

(* ------------------------------------------------------------------------- *)
(** ** The environment: transport, clock, trace *)

(** Calls on the Paho client object [self.client]. *)
Inductive Request :=
| Connect (host : string) (port keepalive : Z)
| LoopStart
| LoopStop
| Disconnect
| Reconnect
| Publish (topic payload : string) (qos : Z) (retain : bool)
| Subscribe (topic : string) (qos : Z)
| Unsubscribe (topic : string).

(** A transport call returns a result code or raises. *)
Inductive Reply := Rc (rc : Z) | Fault.

Module logging.
Inductive level := WARNING | ERROR.
End logging.

(** Effects visible outside the client, in the order they happen.  Log lines
    at levels below WARNING are not recorded.  [Sleep] is a call of
    [time.sleep] with a whole number of seconds, [Nap] one with a fractional
    length (the polls of [connect]). *)
Inductive Event :=
| Transport (req : Request) (reply : Reply)
| Sleep (seconds : Z)
| Nap (seconds : Q)
| Invoke (cb : nat) (topic : string) (data : PayloadData) (o : Outcome)
| Log (lvl : logging.level) (msg : string)
| ThreadStart
| ThreadJoin (timeout : Z).

(** Exceptions, all of them subclasses of [Exception]. *)
Inductive Exn :=
| Empty | Full | ValueError | TypeError | UnicodeDecodeError
| TransportError | CallbackError | OverflowError | JSONDecodeError.

(** The fields of the client object, followed by its environment:
    [clock] is what [time.time()] reads; [broker n] is the reply to the
    [n]-th transport call and [calls] counts the calls made so far;
    [connack n] says whether, after [n] transport calls, the network thread
    has a CONNACK with the given code to deliver. *)
Record World := {
  config : MQTTConfig.t;
  state : ConnectionState.t;
  connected : bool;
  subscriptions : Dict.t Subscription.t;
  wildcard_callbacks : list (string * option Callback);
  message_queue : list QueuedMessage.t;
  queue_thread : bool;
  queue_running : bool;
  stats : Stats.t;
  clock : Q;
  calls : nat;
  broker : nat -> Reply;
  connack : nat -> option Z;
  trace : list Event
}.

Definition set_state v w :=
  Build_World (config w) v (connected w) (subscriptions w)
    (wildcard_callbacks w) (message_queue w) (queue_thread w)
    (queue_running w) (stats w) (clock w) (calls w) (broker w) (connack w)
    (trace w).
Definition set_connected v w :=
  Build_World (config w) (state w) v (subscriptions w)
    (wildcard_callbacks w) (message_queue w) (queue_thread w)
    (queue_running w) (stats w) (clock w) (calls w) (broker w) (connack w)
    (trace w).
Definition set_subscriptions v w :=
  Build_World (config w) (state w) (connected w) v
    (wildcard_callbacks w) (message_queue w) (queue_thread w)
    (queue_running w) (stats w) (clock w) (calls w) (broker w) (connack w)
    (trace w).
Definition set_wildcard_callbacks v w :=
  Build_World (config w) (state w) (connected w) (subscriptions w)
    v (message_queue w) (queue_thread w)
    (queue_running w) (stats w) (clock w) (calls w) (broker w) (connack w)
    (trace w).
Definition set_message_queue v w :=
  Build_World (config w) (state w) (connected w) (subscriptions w)
    (wildcard_callbacks w) v (queue_thread w)
    (queue_running w) (stats w) (clock w) (calls w) (broker w) (connack w)
    (trace w).
Definition set_queue_thread v w :=
  Build_World (config w) (state w) (connected w) (subscriptions w)
    (wildcard_callbacks w) (message_queue w) v
    (queue_running w) (stats w) (clock w) (calls w) (broker w) (connack w)
    (trace w).
Definition set_queue_running v w :=
  Build_World (config w) (state w) (connected w) (subscriptions w)
    (wildcard_callbacks w) (message_queue w) (queue_thread w)
    v (stats w) (clock w) (calls w) (broker w) (connack w)
    (trace w).
Definition set_stats v w :=
  Build_World (config w) (state w) (connected w) (subscriptions w)
    (wildcard_callbacks w) (message_queue w) (queue_thread w)
    (queue_running w) v (clock w) (calls w) (broker w) (connack w)
    (trace w).
Definition set_clock v w :=
  Build_World (config w) (state w) (connected w) (subscriptions w)
    (wildcard_callbacks w) (message_queue w) (queue_thread w)
    (queue_running w) (stats w) v (calls w) (broker w) (connack w)
    (trace w).
Definition set_calls v w :=
  Build_World (config w) (state w) (connected w) (subscriptions w)
    (wildcard_callbacks w) (message_queue w) (queue_thread w)
    (queue_running w) (stats w) (clock w) v (broker w) (connack w)
    (trace w).
Definition set_trace v w :=
  Build_World (config w) (state w) (connected w) (subscriptions w)
    (wildcard_callbacks w) (message_queue w) (queue_thread w)
    (queue_running w) (stats w) (clock w) (calls w) (broker w) (connack w)
    v.

(** The client as [__init__] leaves it, in a given environment. *)
Definition init (cfg : MQTTConfig.t) (now : Q) (replies : nat -> Reply)
           (acks : nat -> option Z) : World :=
  {| config := cfg; state := ConnectionState.DISCONNECTED; connected := false;
     subscriptions := []; wildcard_callbacks := []; message_queue := [];
     queue_thread := false; queue_running := false; stats := Stats.zero;
     clock := now; calls := 0%nat; broker := replies; connack := acks;
     trace := [] |}.

(* ------------------------------------------------------------------------- *)
(** ** The monad of methods *)

(** A call returns a value, raises, or has not returned when the observation
    ends ([Pending]: blocked for good, or a loop still running after the
    number of iterations observed).  State changes made before an exception
    persist, as in Python. *)
Inductive Result (A : Type) :=
| Return (a : A)
| Raise (e : Exn)
| Pending.
Arguments Return {A} a.
Arguments Raise {A} e.
Arguments Pending {A}.

Definition M (A : Type) : Type := World -> Result A * World.

Definition ret {A} (a : A) : M A := fun w => (Return a, w).
Definition raise {A} (e : Exn) : M A := fun w => (Raise e, w).
Definition pending {A} : M A := fun w => (Pending, w).

Definition bind {A B} (m : M A) (k : A -> M B) : M B :=
  fun w =>
    match m w with
    | (Return a, w') => k a w'
    | (Raise e, w') => (Raise e, w')
    | (Pending, w') => (Pending, w')
    end.

(** [try: m  except Exception as e: handler e] *)
Definition try_except {A} (m : M A) (handler : Exn -> M A) : M A :=
  fun w =>
    match m w with
    | (Raise e, w') => handler e w'
    | other => other
    end.

Declare Scope monad_scope.
Delimit Scope monad_scope with monad.
Notation "x <- m ;; k" := (bind m (fun x => k))
  (at level 100, m at next level, right associativity) : monad_scope.
Notation "m ;; k" := (bind m (fun _ => k))
  (at level 100, right associativity) : monad_scope.
Local Open Scope monad_scope.

Definition gets {A} (f : World -> A) : M A := fun w => (Return (f w), w).
Definition modify (f : World -> World) : M unit := fun w => (Return tt, f w).

Definition emit (ev : Event) : M unit :=
  modify (fun w => set_trace (trace w ++ [ev]) w).
Definition log (lvl : logging.level) (msg : string) : M unit :=
  emit (Log lvl msg).
Definition bump (f : Stats.t -> Stats.t) : M unit :=
  modify (fun w => set_stats (f (stats w)) w).

(** [for x in xs: body x] *)
Fixpoint for_each {A} (xs : list A) (body : A -> M unit) : M unit :=
  match xs with
  | [] => ret tt
  | x :: rest => body x ;; for_each rest body
  end.

(** [time.time()] *)
Definition time_time : M Q := gets clock.

(** The longest sleep in whole seconds: CPython converts the length to a
    signed 64-bit count of nanoseconds. *)
Definition max_sleep : Z := 9223372036.

(** [time.sleep(seconds)] for an [int]: a length that does not convert
    raises [OverflowError], a negative one [ValueError]. *)
Definition time_sleep (seconds : Z) : M unit :=
  if (seconds <? - max_sleep) || (max_sleep <? seconds) then raise OverflowError
  else if seconds <? 0 then raise ValueError
  else emit (Sleep seconds) ;;
       modify (fun w => set_clock (clock w + inject_Z seconds)%Q w).

(** [a < b] on clock readings. *)
Definition Qltb (a b : Q) : bool := negb (Qle_bool b a).

(** [time.sleep(seconds)] for a [float] of a fraction of a second. *)
Definition time_nap (seconds : Q) : M unit :=
  if Qltb seconds 0 then raise ValueError
  else emit (Nap seconds) ;;
       modify (fun w => set_clock (clock w + seconds)%Q w).

(** A call on [self.client]: the environment decides the reply. *)
Definition client (req : Request) : M Z :=
  fun w =>
    let reply := broker w (calls w) in
    let w' := set_calls (S (calls w)) (set_trace (trace w ++ [Transport req reply]) w) in
    match reply with
    | Rc rc => (Return rc, w')
    | Fault => (Raise TransportError, w')
    end.

(** [queue.Queue(maxsize)]: a size of zero or less means unbounded. *)
Definition queue_full (w : World) : bool :=
  (0 <? MQTTConfig.queue_size (config w))
  && (MQTTConfig.queue_size (config w) <=? Z.of_nat (List.length (message_queue w))).

Definition put_nowait (message : QueuedMessage.t) : M unit :=
  full <- gets queue_full ;;
  if full then raise Full
  else modify (fun w => set_message_queue (message_queue w ++ [message]) w).

(** [put] blocks while the queue is full. *)
Definition put (message : QueuedMessage.t) : M unit :=
  full <- gets queue_full ;;
  if full then pending
  else modify (fun w => set_message_queue (message_queue w ++ [message]) w).

(** [get(timeout)]: the oldest entry, or [Empty] after the timeout. *)
Definition get (timeout : Z) : M QueuedMessage.t :=
  q <- gets message_queue ;;
  match q with
  | [] => modify (fun w => set_clock (clock w + inject_Z timeout)%Q w) ;;
          raise Empty
  | message :: rest => modify (set_message_queue rest) ;; ret message
  end.

(* ------------------------------------------------------------------------- *)
(** ** Publishing ([publish], [_queue_message]) *)

Definition _queue_message (topic payload : string) (qos : Z) (retain : bool)
  : M unit :=
  try_except
    (now <- time_time ;;
     let message :=
       {| QueuedMessage.topic := topic; QueuedMessage.payload := payload;
          QueuedMessage.qos := qos; QueuedMessage.retain := retain;
          QueuedMessage.timestamp := now |} in
     put_nowait message ;;
     bump Stats.incr_messages_queued)
    (fun e => log logging.ERROR "Failed to queue message").

(** [json.dumps(payload)] for a dict or list, [str(payload)] otherwise. *)
Definition to_payload_str (payload : Payload) : M string :=
  match payload with
  | Structured (Some text) => ret text
  | Structured None => raise TypeError
  | Scalar text => ret text
  end.

Definition publish (topic : string) (payload : Payload) (qos : Z)
           (retain : bool) : M bool :=
  try_except
    (payload_str <- to_payload_str payload ;;
     is_connected <- gets connected ;;
     if is_connected then
       rc <- client (Publish topic payload_str qos retain) ;;
       if rc =? MQTT_ERR_SUCCESS then
         bump Stats.incr_messages_sent ;;
         ret true
       else
         log logging.WARNING "Publish failed" ;;
         _queue_message topic payload_str qos retain ;;
         ret false
     else
       _queue_message topic payload_str qos retain ;;
       ret false)
    (fun e =>
       log logging.ERROR "Publish error" ;;
       bump Stats.incr_errors ;;
       ret false).

(* ------------------------------------------------------------------------- *)
(** ** Subscribing ([subscribe], [unsubscribe], [_resubscribe_all]) *)

(** ['+' in topic or '#' in topic] *)
Definition has_wildcard (topic : string) : bool :=
  Py.contains "+"%char topic || Py.contains "#"%char topic.

Definition subscribe (topic : string) (qos : Z) (callback : option Callback)
  : M bool :=
  try_except
    (let subscription :=
       {| Subscription.topic := topic; Subscription.qos := qos;
          Subscription.callback := callback |} in
     (if has_wildcard topic then
        modify (fun w =>
          set_wildcard_callbacks (wildcard_callbacks w ++ [(topic, callback)]) w)
      else
        modify (fun w =>
          set_subscriptions (Dict.set topic subscription (subscriptions w)) w)) ;;
     is_connected <- gets connected ;;
     if is_connected then
       result <- client (Subscribe topic qos) ;;
       if result =? MQTT_ERR_SUCCESS then ret true
       else log logging.ERROR "Subscribe failed" ;; ret false
     else ret true)
    (fun e =>
       log logging.ERROR "Subscribe error" ;;
       bump Stats.incr_errors ;;
       ret false).

(** The list comprehension [[(t, c) for t, c in ... if t != topic]]. *)
Definition without_pattern (topic : string)
           (entries : list (string * option Callback))
  : list (string * option Callback) :=
  filter (fun entry => negb (fst entry =? topic)%string) entries.

Definition unsubscribe (topic : string) : M bool :=
  try_except
    (modify (fun w =>
       set_subscriptions (Dict.del topic (subscriptions w)) w) ;;
     modify (fun w =>
       set_wildcard_callbacks (without_pattern topic (wildcard_callbacks w)) w) ;;
     is_connected <- gets connected ;;
     if is_connected then
       result <- client (Unsubscribe topic) ;;
       if result =? MQTT_ERR_SUCCESS then ret true
       else log logging.ERROR "Unsubscribe failed" ;; ret false
     else ret true)
    (fun e => log logging.ERROR "Unsubscribe error" ;; ret false).

Definition _resubscribe_all : M unit :=
  subs <- gets subscriptions ;;
  for_each subs (fun item =>
    client (Subscribe (fst item) (Subscription.qos (snd item))) ;; ret tt) ;;
  wildcards <- gets wildcard_callbacks ;;
  for_each wildcards (fun item =>
    client (Subscribe (fst item) 1) ;; ret tt).

(* ------------------------------------------------------------------------- *)
(** ** Queue processing *)

Definition _start_queue_processor : M unit :=
  running <- gets queue_running ;;
  if negb running then
    modify (set_queue_running true) ;;
    modify (set_queue_thread true) ;;
    emit ThreadStart
  else ret tt.

Definition _stop_queue_processor : M unit :=
  modify (set_queue_running false) ;;
  thread <- gets queue_thread ;;
  if thread then emit (ThreadJoin 2) else ret tt.

(** [a > b] on clock readings. *)
Definition Qgtb (a b : Q) : bool := negb (Qle_bool a b).

(** The body of the [while self.queue_running] loop of [_process_queue];
    a [continue] ends the iteration, which is run here with no other thread
    in between.  Clock readings are rationals and the age is their exact
    difference: the float subtraction of the code agrees with it wherever
    that is exact. *)
Definition queue_iteration : M unit :=
  try_except
    (got <- try_except (message <- get 1 ;; ret (Some message))
                       (fun e => match e with
                                 | Empty => ret None
                                 | _ => raise e
                                 end) ;;
     match got with
     | None => ret tt
     | Some message =>
         now <- time_time ;;
         let age := (now - QueuedMessage.timestamp message)%Q in
         timeout <- gets (fun w => MQTTConfig.message_timeout (config w)) ;;
         if Qgtb age (inject_Z timeout) then
           log logging.WARNING "Dropping old message"
         else
           is_connected <- gets connected ;;
           if is_connected then
             rc <- client (Publish (QueuedMessage.topic message)
                                   (QueuedMessage.payload message)
                                   (QueuedMessage.qos message)
                                   (QueuedMessage.retain message)) ;;
             if rc =? MQTT_ERR_SUCCESS then
               bump Stats.incr_messages_sent
             else
               put message ;;
               time_sleep 1
           else
             put message ;;
             time_sleep 1
     end)
    (fun e =>
       log logging.ERROR "Queue processing error" ;;
       time_sleep 1).

(** The worker holds no lock between taking a message and putting it back.
    The two parts of an iteration, for schedules in which another thread runs
    in between: [queue_take] is the iteration up to the point where it is
    over ([None]) or the message has to go back ([Some message]);
    [queue_put_back] is the rest.  The [except] clause covers both. *)
Definition queue_take : M (option QueuedMessage.t) :=
  try_except
    (got <- try_except (message <- get 1 ;; ret (Some message))
                       (fun e => match e with
                                 | Empty => ret None
                                 | _ => raise e
                                 end) ;;
     match got with
     | None => ret None
     | Some message =>
         now <- time_time ;;
         let age := (now - QueuedMessage.timestamp message)%Q in
         timeout <- gets (fun w => MQTTConfig.message_timeout (config w)) ;;
         if Qgtb age (inject_Z timeout) then
           log logging.WARNING "Dropping old message" ;;
           ret None
         else
           is_connected <- gets connected ;;
           if is_connected then
             rc <- client (Publish (QueuedMessage.topic message)
                                   (QueuedMessage.payload message)
                                   (QueuedMessage.qos message)
                                   (QueuedMessage.retain message)) ;;
             if rc =? MQTT_ERR_SUCCESS then
               bump Stats.incr_messages_sent ;;
               ret None
             else ret (Some message)
           else ret (Some message)
     end)
    (fun e =>
       log logging.ERROR "Queue processing error" ;;
       time_sleep 1 ;;
       ret None).

Definition queue_put_back (message : QueuedMessage.t) : M unit :=
  try_except
    (put message ;;
     time_sleep 1)
    (fun e =>
       log logging.ERROR "Queue processing error" ;;
       time_sleep 1).

(** [_process_queue], observed for a number of iterations. *)
Fixpoint _process_queue (iterations : nat) : M unit :=
  running <- gets queue_running ;;
  if running then
    match iterations with
    | O => pending
    | S more => queue_iteration ;; _process_queue more
    end
  else ret tt.

(* ------------------------------------------------------------------------- *)
(** ** Callback handlers and reconnection *)

Definition _on_connect (rc : Z) : M unit :=
  if rc =? 0 then
    modify (set_connected true) ;;
    modify (set_state ConnectionState.CONNECTED) ;;
    _resubscribe_all ;;
    _start_queue_processor
  else
    log logging.ERROR "Connection failed" ;;
    modify (set_connected false) ;;
    modify (set_state ConnectionState.ERROR) ;;
    bump Stats.incr_errors.

(** The network thread gets to run: if a CONNACK is due it calls
    [_on_connect].  An exception there ends in the network thread, not in
    the caller that gave way. *)
Definition network_thread : M unit :=
  fun w =>
    match connack w (calls w) with
    | Some rc => (Return tt, snd (_on_connect rc w))
    | None => (Return tt, w)
    end.

(** The [while self.config.auto_reconnect and not self.connected] loop of
    [_handle_reconnect], observed for a number of iterations.  Each
    iteration yields the delay for the next one. *)
Fixpoint reconnect_loop (iterations : nat) (delay : Z) : M unit :=
  cfg <- gets config ;;
  is_connected <- gets connected ;;
  if MQTTConfig.auto_reconnect cfg && negb is_connected then
    match iterations with
    | O => pending
    | S more =>
        delay' <- try_except
                    (time_sleep delay ;;
                     client Reconnect ;;
                     ret (Z.min (delay * 2) (MQTTConfig.max_reconnect_delay cfg)))
                    (fun e =>
                       log logging.ERROR "Reconnect failed" ;;
                       ret delay) ;;
        network_thread ;;
        reconnect_loop more delay'
    end
  else ret tt.

Definition _handle_reconnect (iterations : nat) : M unit :=
  bump Stats.incr_reconnect_count ;;
  delay <- gets (fun w => MQTTConfig.reconnect_delay (config w)) ;;
  reconnect_loop iterations delay.

Definition _on_disconnect (iterations : nat) (rc : Z) : M unit :=
  modify (set_connected false) ;;
  (if rc =? 0 then modify (set_state ConnectionState.DISCONNECTED)
   else modify (set_state ConnectionState.RECONNECTING) ;;
        log logging.WARNING "Unexpected disconnect") ;;
  _stop_queue_processor ;;
  cfg <- gets config ;;
  if MQTTConfig.auto_reconnect cfg && negb (rc =? 0) then
    _handle_reconnect iterations
  else ret tt.

(** Calling a callback; calling [None] raises [TypeError]. *)
Definition call (callback : option Callback) (topic : string)
           (data : PayloadData) : M unit :=
  match callback with
  | None => raise TypeError
  | Some cb =>
      let outcome := cb_run cb topic data in
      emit (Invoke (cb_id cb) topic data outcome) ;;
      match outcome with
      | Returns => ret tt
      | Throws => raise CallbackError
      end
  end.

(** [json.loads(payload)] *)
Definition json_loads (outcome : json.loads) : M string :=
  match outcome with
  | json.Value value => ret value
  | json.NotJson => raise JSONDecodeError
  | json.Refused => raise ValueError
  end.

Definition _on_message (message : MQTTMessage.t) : M unit :=
  try_except
    (let topic := MQTTMessage.topic message in
     payload <- match MQTTMessage.decoded message with
                | Some text => ret text
                | None => raise UnicodeDecodeError
                end ;;
     bump Stats.incr_messages_received ;;
     payload_data <- try_except
                       (value <- json_loads (MQTTMessage.parsed message) ;;
                        ret (Parsed value))
                       (fun e => match e with
                                 | JSONDecodeError => ret (Text payload)
                                 | _ => raise e
                                 end) ;;
     subs <- gets subscriptions ;;
     match Dict.get topic subs with
     | Some sub =>
         match Subscription.callback sub with
         | Some cb =>
             try_except (call (Some cb) topic payload_data)
                        (fun e => log logging.ERROR "Callback error")
         | None => ret tt
         end
     | None => ret tt
     end ;;
     wildcards <- gets wildcard_callbacks ;;
     for_each wildcards (fun entry =>
       if _topic_matches topic (fst entry) then
         try_except (call (snd entry) topic payload_data)
                    (fun e => log logging.ERROR "Wildcard callback error")
       else ret tt))
    (fun e =>
       log logging.ERROR "Message processing error" ;;
       bump Stats.incr_errors).

(* ------------------------------------------------------------------------- *)
(** ** Connection management ([connect], [disconnect], [reconnect]) *)

(** The [while not self.connected and (time.time() - start_time) < timeout]
    loop of [connect], observed for a number of polls of 0.1 s. *)
Fixpoint poll_connected (polls : nat) (start_time : Q) (timeout : Z) : M unit :=
  is_connected <- gets connected ;;
  now <- time_time ;;
  if negb is_connected && Qltb (now - start_time) (inject_Z timeout) then
    match polls with
    | O => pending
    | S more => time_nap (1 # 10) ;; poll_connected more start_time timeout
    end
  else ret tt.

(** Waiting for the connection in [connect].  The network thread gets its
    turn before the flag is first tested: a CONNACK that is due is delivered
    then, otherwise none arrives while the caller polls.  Ten polls a second
    exhaust the timeout. *)
Definition wait_for_connection (timeout : Z) : M unit :=
  start_time <- time_time ;;
  network_thread ;;
  poll_connected (Z.to_nat (timeout * 10)) start_time timeout.

(** [connect] with no other thread running between its statements; the
    network thread gets its turn while [connect] waits. *)
Definition connect : M bool :=
  try_except
    (is_connected <- gets connected ;;
     if is_connected then
       log logging.WARNING "Already connected" ;;
       ret true
     else
       modify (set_state ConnectionState.CONNECTING) ;;
       cfg <- gets config ;;
       client (Connect (MQTTConfig.broker_host cfg)
                       (MQTTConfig.broker_port cfg)
                       (MQTTConfig.keepalive cfg)) ;;
       client LoopStart ;;
       wait_for_connection 10 ;;
       is_connected <- gets connected ;;
       if is_connected then ret true
       else log logging.ERROR "Connection timeout" ;; ret false)
    (fun e =>
       log logging.ERROR "Connection failed" ;;
       modify (set_state ConnectionState.ERROR) ;;
       bump Stats.incr_errors ;;
       ret false).

(** [connect] holds the lock for its first statements only.  Its two parts,
    for schedules in which another thread runs once the lock is released:
    the block under [with self._lock] ([Some b]: the method returned [b]
    there), and the rest of the [try] with the [except] clause, which runs
    without the lock. *)
Definition connect_locked : M (option bool) :=
  is_connected <- gets connected ;;
  if is_connected then
    log logging.WARNING "Already connected" ;;
    ret (Some true)
  else
    modify (set_state ConnectionState.CONNECTING) ;;
    ret None.

Definition connect_unlocked : M bool :=
  try_except
    (cfg <- gets config ;;
     client (Connect (MQTTConfig.broker_host cfg)
                     (MQTTConfig.broker_port cfg)
                     (MQTTConfig.keepalive cfg)) ;;
     client LoopStart ;;
     wait_for_connection 10 ;;
     is_connected <- gets connected ;;
     if is_connected then ret true
     else log logging.ERROR "Connection timeout" ;; ret false)
    (fun e =>
       log logging.ERROR "Connection failed" ;;
       modify (set_state ConnectionState.ERROR) ;;
       bump Stats.incr_errors ;;
       ret false).

Definition disconnect : M unit :=
  try_except
    (_stop_queue_processor ;;
     client LoopStop ;;
     client Disconnect ;;
     modify (set_connected false) ;;
     modify (set_state ConnectionState.DISCONNECTED))
    (fun e => log logging.ERROR "Disconnect error").

Definition reconnect : M bool :=
  disconnect ;;
  time_sleep 1 ;;
  connect.

(** ** Utility methods *)

Definition is_connected (w : World) : bool := connected w.
Definition get_state (w : World) : ConnectionState.t := state w.

(* ------------------------------------------------------------------------- *)
(** ** The client in its environment

    The client is driven by its caller, by the network thread (the [_on_*]
    callbacks) and by the queue worker.  An [Action] is one such call, run
    to its end before the next one starts.  Schedules that cut into a call
    are written with the parts of [connect] ([connect_locked],
    [connect_unlocked]) and of the worker iteration ([queue_take],
    [queue_put_back]). *)

Inductive Action :=
| CallConnect
| CallDisconnect
| CallReconnect
| CallPublish (topic : string) (payload : Payload) (qos : Z) (retain : bool)
| CallSubscribe (topic : string) (qos : Z) (callback : option Callback)
| CallUnsubscribe (topic : string)
| NetOnConnect (rc : Z)
| NetOnDisconnect (iterations : nat) (rc : Z)
| NetOnMessage (message : MQTTMessage.t)
| WorkerIteration
| Tick (elapsed : Q).

Definition exec {A} (m : M A) (w : World) : World := snd (m w).

Definition step (a : Action) (w : World) : World :=
  match a with
  | CallConnect => exec connect w
  | CallDisconnect => exec disconnect w
  | CallReconnect => exec reconnect w
  | CallPublish topic payload qos retain => exec (publish topic payload qos retain) w
  | CallSubscribe topic qos callback => exec (subscribe topic qos callback) w
  | CallUnsubscribe topic => exec (unsubscribe topic) w
  | NetOnConnect rc => exec (_on_connect rc) w
  | NetOnDisconnect iterations rc => exec (_on_disconnect iterations rc) w
  | NetOnMessage message => exec (_on_message message) w
  | WorkerIteration => if queue_running w then exec queue_iteration w else w
  | Tick elapsed => set_clock (clock w + elapsed)%Q w
  end.

Definition run (actions : list Action) (w : World) : World :=
  fold_left (fun w a => step a w) actions w.

(** ** Observations on traces *)

(** The transport request that sends a queued message. *)
Definition request_of (message : QueuedMessage.t) : Request :=
  Publish (QueuedMessage.topic message) (QueuedMessage.payload message)
          (QueuedMessage.qos message) (QueuedMessage.retain message).

(** The publish requests the transport accepted, in order: what was sent. *)
Fixpoint sent (events : list Event) : list Request :=
  match events with
  | [] => []
  | Transport (Publish topic payload qos retain) (Rc rc) :: rest =>
      if rc =? MQTT_ERR_SUCCESS
      then Publish topic payload qos retain :: sent rest
      else sent rest
  | _ :: rest => sent rest
  end.

(** Every publish request made on the transport, whatever the reply. *)
Fixpoint publish_requests (events : list Event) : list Request :=
  match events with
  | [] => []
  | Transport (Publish topic payload qos retain) _ :: rest =>
      Publish topic payload qos retain :: publish_requests rest
  | _ :: rest => publish_requests rest
  end.


(** The callbacks invoked. *)
Fixpoint invocations (events : list Event) : list nat :=
  match events with
  | [] => []
  | Invoke cb _ _ _ :: rest => cb :: invocations rest
  | _ :: rest => invocations rest
  end.

(** The lengths slept, in whole seconds. *)
Fixpoint sleeps (events : list Event) : list Z :=
  match events with
  | [] => []
  | Sleep seconds :: rest => seconds :: sleeps rest
  | _ :: rest => sleeps rest
  end.

(** The lines logged at a level. *)
Fixpoint logged (lvl : logging.level) (events : list Event) : list string :=
  match events with
  | [] => []
  | Log logging.WARNING msg :: rest =>
      match lvl with
      | logging.WARNING => msg :: logged lvl rest
      | logging.ERROR => logged lvl rest
      end
  | Log logging.ERROR msg :: rest =>
      match lvl with
      | logging.ERROR => msg :: logged lvl rest
      | logging.WARNING => logged lvl rest
      end
  | _ :: rest => logged lvl rest
  end.

(* ------------------------------------------------------------------------- *)
(** ** Vocabulary of the statements *)

(** The text a payload is sent as, when it can be serialised. *)
Definition rendering (payload : Payload) : option string :=
  match payload with
  | Structured dumps => dumps
  | Scalar text => Some text
  end.

(** The entry [_queue_message] builds at clock reading [now]. *)
Definition queued (topic text : string) (qos : Z) (retain : bool) (now : Q)
  : QueuedMessage.t :=
  {| QueuedMessage.topic := topic; QueuedMessage.payload := text;
     QueuedMessage.qos := qos; QueuedMessage.retain := retain;
     QueuedMessage.timestamp := now |}.

(** The age test of the queue worker at clock reading [now]:
    [now - message.timestamp > message_timeout]. *)
Definition too_old (w : World) (message : QueuedMessage.t) (now : Q) : bool :=
  Qgtb (now - QueuedMessage.timestamp message)
       (inject_Z (MQTTConfig.message_timeout (config w))).

(** The finite values of a Python [float] (IEEE 754 binary64): an integer
    of at most 53 bits times a power of two. *)
Definition binary64 (x : Q) : Prop :=
  exists m e : Z,
    Z.abs m < 2 ^ 53 /\ -1074 <= e <= 971
    /\ (x == inject_Z m * (2 # 1) ^ e)%Q.

(** [rounds x y]: [y] is a float nearest to [x], what a float operation with
    exact result [x] yields. *)
Definition rounds (x y : Q) : Prop :=
  binary64 y
  /\ forall z, binary64 z -> (Qabs (x - y) <= Qabs (x - z))%Q.

(** Clock readings at which the age the worker computes is exact.  The code
    subtracts two floats, the reading [now] and the stamp of the message,
    and the difference of two floats is itself a float when the larger is
    at most twice the smaller (Sterbenz): so it is for a positive stamp and
    a reading between the stamp and its double, as with two readings of
    [time.time()] taken years, not decades, apart. *)
Definition exact_age (message : QueuedMessage.t) (now : Q) : Prop :=
  (QueuedMessage.timestamp message <= now
   <= 2 * QueuedMessage.timestamp message)%Q.

(** The bounded queue holds no more than its capacity. *)
Definition within_capacity (w : World) : Prop :=
  0 < MQTTConfig.queue_size (config w) ->
  Z.of_nat (List.length (message_queue w)) <= MQTTConfig.queue_size (config w).

(** The transport accepts the [n]-th call (returns [MQTT_ERR_SUCCESS]). *)
Definition accepts_call (w : World) (n : nat) : Prop :=
  broker w n = Rc MQTT_ERR_SUCCESS.

(** The transport rejects the [n]-th call with an error code. *)
Definition rejects_call (w : World) (n : nat) : Prop :=
  exists rc, rc <> MQTT_ERR_SUCCESS /\ broker w n = Rc rc.



(** [keeps f m]: running [m] does not change the observation [f], however
    the call ends. *)
Definition keeps {X A} (f : World -> X) (m : M A) : Prop :=
  forall w, f (snd (m w)) = f w.


(** The connection flag and state, read together. *)
Definition link (w : World) : bool * ConnectionState.t :=
  (connected w, state w).

(** [preserves I m]: running [m] from a world in [I] ends in a world in [I],
    however the call ends. *)
Definition preserves {A} (I : World -> Prop) (m : M A) : Prop :=
  forall w, I w -> I (snd (m w)).

(** The connection invariant: the flag is set only in state CONNECTED. *)
Definition consistent (w : World) : Prop :=
  connected w = true -> state w = ConnectionState.CONNECTED.

(** The worlds a client can be in: created by [__init__], then driven by any
    sequence of calls, callbacks and worker iterations. *)
Inductive reachable : World -> Prop :=
| reachable_init cfg now replies acks :
    reachable (init cfg now replies acks)
| reachable_step a w : reachable w -> reachable (step a w).


(** What the callbacks receive for a message, when [_on_message] gets as
    far as calling them: the payload decodes and [json.loads] returns (the
    parsed value) or raises [JSONDecodeError] (the decoded text). *)
Definition payload_data (message : MQTTMessage.t) : option PayloadData :=
  match MQTTMessage.decoded message, MQTTMessage.parsed message with
  | Some text, json.Value value => Some (Parsed value)
  | Some text, json.NotJson => Some (Text text)
  | _, _ => None
  end.

(** The callbacks registered for a topic, in dispatch order: the one of the
    exact subscription, then those of the wildcard entries whose pattern
    matches.  An entry without a callable contributes nothing. *)
Definition callable (callback : option Callback) : list nat :=
  match callback with
  | Some cb => [cb_id cb]
  | None => []
  end.

Definition exact_recipient (w : World) (topic : string) : list nat :=
  match Dict.get topic (subscriptions w) with
  | Some sub => callable (Subscription.callback sub)
  | None => []
  end.

Definition wildcard_recipients (topic : string)
           (entries : list (string * option Callback)) : list nat :=
  flat_map (fun entry =>
              if _topic_matches topic (fst entry) then callable (snd entry)
              else []) entries.

Definition recipients (w : World) (topic : string) : list nat :=
  exact_recipient w topic ++ wildcard_recipients topic (wildcard_callbacks w).


(** Does calling this callback raise?  Calling [None] does. *)
Definition fails (callback : option Callback) (topic : string)
           (data : PayloadData) : bool :=
  match callback with
  | None => true
  | Some cb =>
      match cb_run cb topic data with
      | Throws => true
      | Returns => false
      end
  end.

(** The ERROR lines a dispatch writes: one per callback that raised. *)
Definition failure_lines (w : World) (topic : string) (data : PayloadData)
  : list string :=
  match Dict.get topic (subscriptions w) with
  | Some sub =>
      match Subscription.callback sub with
      | Some cb => if fails (Some cb) topic data then ["Callback error"] else []
      | None => []
      end
  | None => []
  end
  ++ flat_map (fun entry =>
                 if _topic_matches topic (fst entry)
                    && fails (snd entry) topic data
                 then ["Wildcard callback error"] else [])
              (wildcard_callbacks w).

(** What one guarded call appends to the trace. *)
Definition call_events (label : string) (callback : option Callback)
           (topic : string) (data : PayloadData) : list Event :=
  match callback with
  | None => [Log logging.ERROR label]
  | Some cb =>
      match cb_run cb topic data with
      | Returns => [Invoke (cb_id cb) topic data Returns]
      | Throws => [Invoke (cb_id cb) topic data Throws;
                   Log logging.ERROR label]
      end
  end.

Definition exact_events (w : World) (topic : string) (data : PayloadData)
  : list Event :=
  match Dict.get topic (subscriptions w) with
  | Some sub =>
      match Subscription.callback sub with
      | Some cb => call_events "Callback error" (Some cb) topic data
      | None => []
      end
  | None => []
  end.

Definition wildcard_events (topic : string) (data : PayloadData)
           (entries : list (string * option Callback)) : list Event :=
  flat_map (fun entry =>
              if _topic_matches topic (fst entry)
              then call_events "Wildcard callback error" (snd entry) topic data
              else []) entries.

Definition dispatch_events (w : World) (topic : string) (data : PayloadData)
  : list Event :=
  exact_events w topic data
  ++ wildcard_events topic data (wildcard_callbacks w).

(** The two stores of the subscription registry, read together. *)
Definition registry (w : World)
  : Dict.t Subscription.t * list (string * option Callback) :=
  (subscriptions w, wildcard_callbacks w).

(** Every call made on the transport, whatever the reply. *)
Fixpoint requests (events : list Event) : list Request :=
  match events with
  | [] => []
  | Transport req _ :: rest => req :: requests rest
  | _ :: rest => requests rest
  end.




(** The [reconnect_count] statistic. *)
Definition reconnects (w : World) : Z := Stats.reconnect_count (stats w).

(** The lengths slept so far, in whole seconds. *)
Definition slept (w : World) : list Z := sleeps (trace w).




(* ------------------------------------------------------------------------- *)
(** ** Further methods of the client *)

(** [get_stats]: the statistics dict with the current queue depth added
    under ['queue_size']. *)
Definition stats_dict (s : Stats.t) : Dict.t Z :=
  [("messages_sent", Stats.messages_sent s);
   ("messages_received", Stats.messages_received s);
   ("messages_queued", Stats.messages_queued s);
   ("reconnect_count", Stats.reconnect_count s);
   ("errors", Stats.errors s)].

Definition get_stats (w : World) : Dict.t Z :=
  Dict.set "queue_size" (Z.of_nat (List.length (message_queue w)))
           (stats_dict (stats w)).

(** Context manager support: [__enter__] connects and returns the client
    whatever [connect] answered; [__exit__] disconnects. *)
Definition __enter__ : M unit := connect ;; ret tt.
Definition __exit__ : M unit := disconnect.

(* ------------------------------------------------------------------------- *)
(** ** Further vocabulary *)

(** [sep.join(parts)], the inverse of [split]. *)
Fixpoint join (sep : ascii) (parts : list string) : string :=
  match parts with
  | [] => EmptyString
  | [part] => part
  | part :: rest => (part ++ String sep (join sep rest))%string
  end.

(** The two stores are disjoint by construction: exact topics carry no
    wildcard character and are unique keys; wildcard patterns carry one. *)
Definition registry_well_formed (w : World) : Prop :=
  NoDup (map fst (subscriptions w))
  /\ Forall (fun item => has_wildcard (fst item) = false) (subscriptions w)
  /\ Forall (fun entry => has_wildcard (fst entry) = true)
            (wildcard_callbacks w).

(** Counter-wise comparison of statistics. *)
Definition stats_le (s s' : Stats.t) : Prop :=
  Stats.messages_sent s <= Stats.messages_sent s'
  /\ Stats.messages_received s <= Stats.messages_received s'
  /\ Stats.messages_queued s <= Stats.messages_queued s'
  /\ Stats.reconnect_count s <= Stats.reconnect_count s'
  /\ Stats.errors s <= Stats.errors s'.

(** [grows m]: running [m] never lowers a counter. *)
Definition grows {A} (m : M A) : Prop :=
  forall w, stats_le (stats w) (stats (snd (m w))).

(** The surplus of [messages_sent] over the publishes the transport
    accepted. *)
Definition sent_surplus (w : World) : Z :=
  Stats.messages_sent (stats w) - Z.of_nat (List.length (sent (trace w))).

(** The arguments callbacks were invoked with. *)
Fixpoint invoked_with (events : list Event) : list (string * PayloadData) :=
  match events with
  | [] => []
  | Invoke _ topic data _ :: rest => (topic, data) :: invoked_with rest
  | _ :: rest => invoked_with rest
  end.

(** [returns m]: a call of [m] always returns a value: it neither raises
    nor stays pending.  [settles m]: it returns or raises. *)
Definition returns {A} (m : M A) : Prop :=
  forall w, exists a, fst (m w) = Return a.

Definition settles {A} (m : M A) : Prop :=
  forall w, fst (m w) <> Pending.

(** The configuration and the queue, read together. *)
Definition queue_view (w : World) : MQTTConfig.t * list QueuedMessage.t :=
  (config w, message_queue w).

(* ------------------------------------------------------------------------- *)
(** ** Sample configurations and environments *)

Module Sample.

(** The default configuration with a queue of capacity two. *)
Definition small_queue : MQTTConfig.t :=
  {| MQTTConfig.broker_host := "localhost"; MQTTConfig.broker_port := 1883;
     MQTTConfig.keepalive := 60; MQTTConfig.auto_reconnect := true;
     MQTTConfig.reconnect_delay := 5; MQTTConfig.max_reconnect_delay := 120;
     MQTTConfig.queue_size := 2; MQTTConfig.message_timeout := 30 |}.

(** A transport that accepts every call, and one that raises on every call. *)
Definition accepting : nat -> Reply := fun _ => Rc MQTT_ERR_SUCCESS.
Definition faulty : nat -> Reply := fun _ => Fault.


(** A transport on which the first call raises and the following ones are
    accepted. *)
Definition down_once : nat -> Reply :=
  fun n => match n with O => Fault | S _ => Rc MQTT_ERR_SUCCESS end.

(** No CONNACK is ever delivered. *)
Definition silent : nat -> option Z := fun _ => None.

Definition fresh_client : World :=
  init MQTTConfig.default 0 accepting silent.

(** A connected client whose worker is running, with the given replies and
    queue contents, at clock reading [now]. *)
Definition online (replies : nat -> Reply) (entries : list QueuedMessage.t)
           (now : Q) : World :=
  set_queue_thread true
    (set_queue_running true
       (set_message_queue entries
          (set_state ConnectionState.CONNECTED
             (set_connected true
                (init MQTTConfig.default now replies silent))))).

(** A callback that returns and one that raises on every call. *)
Definition steady : Callback := {| cb_id := 1; cb_run := fun _ _ => Returns |}.
Definition broken : Callback := {| cb_id := 2; cb_run := fun _ _ => Throws |}.

(** An inbound reading whose payload is valid JSON. *)
Definition reading : MQTTMessage.t :=
  {| MQTTMessage.topic := "device/42/telemetry";
     MQTTMessage.decoded := Some "21.5";
     MQTTMessage.parsed := json.Value "21.5" |}.

(** A message on the same topic whose payload is not UTF-8, and one whose
    payload is an integer literal of 5000 digits, more than [json.loads]
    converts. *)
Definition garbled : MQTTMessage.t :=
  {| MQTTMessage.topic := "device/42/telemetry";
     MQTTMessage.decoded := None;
     MQTTMessage.parsed := json.NotJson |}.
Fixpoint nines (n : nat) : string :=
  match n with
  | O => EmptyString
  | S n' => String "9" (nines n')
  end.
Definition huge_number : MQTTMessage.t :=
  {| MQTTMessage.topic := "device/42/telemetry";
     MQTTMessage.decoded := Some (nines 5000);
     MQTTMessage.parsed := json.Refused |}.

(** A disconnected client with a raising callback on the exact topic of
    [reading] and a returning one on a wildcard pattern that matches it. *)
Definition two_subscribers : World :=
  run [CallSubscribe "device/42/telemetry" 1 (Some broken);
       CallSubscribe "device/+/telemetry" 1 (Some steady)]
      fresh_client.


(** A transport on which the first two calls raise, and a network thread
    that delivers a successful CONNACK once three calls have been made. *)
Definition down_twice : nat -> Reply :=
  fun n => if (n <? 2)%nat then Fault else Rc MQTT_ERR_SUCCESS.
Definition connack_after_three : nat -> option Z :=
  fun n => if (n =? 3)%nat then Some 0 else None.

(** A client that has just lost its connection. *)
Definition dropped : World :=
  set_state ConnectionState.RECONNECTING
    (init MQTTConfig.default 0 down_twice connack_after_three).

(** The same two subscriptions on a transport whose calls raise. *)
Definition wildcard_first_unreachable : World :=
  run [CallSubscribe "sensors/+" 2 (Some steady);
       CallSubscribe "alerts" 0 (Some steady)]
      (init MQTTConfig.default 0 faulty silent).


Definition m1 : QueuedMessage.t := queued "plant/line" "m1" 1 false 0.
Definition m2 : QueuedMessage.t := queued "plant/line" "m2" 1 false 0.
Definition m3 : QueuedMessage.t := queued "plant/line" "m3" 1 false 0.

(** A disconnected client whose queue of capacity two is full, with the
    worker running. *)
Definition backlog : World :=
  set_queue_thread true
    (set_queue_running true
       (set_message_queue [m1; m2] (init small_queue 0 accepting silent))).

(** A message stamped at clock reading 1000. *)
Definition stamped : QueuedMessage.t := queued "plant/line" "on" 1 false 1000.

End Sample.

(* ========================================================================= *)
(** * Verification *)

(** ** Python strings *)

Lemma split_nonempty sep s : Py.split sep s <> [].
Proof.
  destruct s as [|c rest]; simpl; [discriminate|].
  destruct (Ascii.eqb c sep); [discriminate|].
  destruct (Py.split sep rest); discriminate.
Qed.

Lemma mem_In x xs : Py.mem x xs = true <-> In x xs.
Proof.
  unfold Py.mem. rewrite existsb_exists. split.
  - intros [y [Hy E]]. apply String.eqb_eq in E. now subst.
  - intros H. exists x. split; [assumption | apply String.eqb_refl].
Qed.

Example split_levels :
  Py.split slash "device/42//telemetry/" = ["device"; "42"; ""; "telemetry"; ""].
Proof. reflexivity. Qed.

Example split_empty : Py.split slash "" = [""].
Proof. reflexivity. Qed.

(** ** The topic matcher *)

(** The edge cases listed with the matcher's contract. *)
Example trailing_hash_after_prefix :
  _topic_matches "a/b" "a/b/#" = true
  /\ _topic_matches "a/b/c" "a/b/#" = true
  /\ _topic_matches "a/b/c/d" "a/b/#" = true.
Proof. repeat split; reflexivity. Qed.

Example plus_alone :
  _topic_matches "a" "+" = true /\ _topic_matches "a/b" "+" = false.
Proof. split; reflexivity. Qed.

Example hash_alone_matches_empty_topic : _topic_matches "" "#" = true.
Proof. reflexivity. Qed.

Example telemetry_scenario :
  _topic_matches "device/42/telemetry" "device/+/telemetry" = true
  /\ _topic_matches "device/42/telemetry/extra" "device/+/telemetry" = false.
Proof. split; reflexivity. Qed.

Section MatcherProofs.

Lemma accepts_nil_inv ts : Accepts ts [] -> ts = [].
Proof. inversion 1; reflexivity. Qed.

Lemma accepts_hash_head ts ps : Accepts ts ("#" :: ps) -> ps = [].
Proof.
  inversion 1; subst; try reflexivity; try discriminate.
  congruence.
Qed.

Lemma accepts_cons_inv t ts p ps :
  p <> "#" -> Accepts (t :: ts) (p :: ps) ->
  (p = "+" \/ p = t) /\ Accepts ts ps.
Proof.
  intros Hp H. inversion H; subst.
  - congruence.
  - split; [now left | assumption].
  - split; [now right | assumption].
Qed.

Lemma accepts_empty_topic p ps : p <> "#" -> ~ Accepts [] (p :: ps).
Proof. intros Hp H. inversion H; subst. congruence. Qed.

Lemma removelast_cons_In (x : string) y l : In x (removelast (x :: y :: l)).
Proof. simpl. now left. Qed.

Lemma removelast_tail_In (x p : string) l :
  In x (removelast l) -> In x (removelast (p :: l)).
Proof.
  destruct l as [|y l]; simpl; [tauto|]. intros H. now right.
Qed.

(** One iteration further: re-associate the consumed prefixes so that the
    induction hypothesis applies at index [S i]. *)
Ltac step_level IH pre ppre t p ts :=
  replace (pre ++ t :: ts) with ((pre ++ [t]) ++ ts)
    by (rewrite <- app_assoc; reflexivity);
  match goal with
  | |- context [ppre ++ p :: ?ps] =>
      replace (ppre ++ p :: ps) with ((ppre ++ [p]) ++ ps)
        by (rewrite <- app_assoc; reflexivity)
  end;
  replace (S (List.length pre)) with (List.length (pre ++ [t]))
    by (rewrite length_app; simpl; lia);
  rewrite (IH (pre ++ [t]) (ppre ++ [p]) ts)
    by (rewrite ?length_app; simpl; auto).

(** The indexed loop agrees with [Accepts] on the levels still to be read:
    [pre] and [ppre] are the levels already consumed on both sides. *)
Lemma match_loop_accepts ps : forall pre ppre ts,
  List.length ppre = List.length pre ->
  ~ In "#" (removelast ps) ->
  match match_loop (pre ++ ts) (List.length pre) ps with
  | Some b => b
  | None => (List.length (pre ++ ts) =? List.length (ppre ++ ps))%nat
  end = true <-> Accepts ts ps.
Proof.
  induction ps as [|p ps IH]; intros pre ppre ts Hlen Hhash; simpl.
  - rewrite !length_app, Hlen. simpl. rewrite Nat.eqb_eq. split.
    + intros H. assert (List.length ts = 0%nat) by lia.
      destruct ts; [constructor | discriminate].
    + intros H. apply accepts_nil_inv in H. subst. simpl. lia.
  - destruct (String.eqb_spec p "#") as [-> | Hp].
    + destruct ps as [|q ps].
      * split; [intros _; constructor | reflexivity].
      * exfalso. apply Hhash. apply removelast_cons_In.
    + assert (Hps : ~ In "#" (removelast ps))
        by (intro Hin; apply Hhash; now apply removelast_tail_In).
      destruct ts as [|t ts].
      * rewrite app_nil_r, Nat.leb_refl. split; [discriminate|].
        intros H. now apply accepts_empty_topic in H.
      * replace (List.length (pre ++ t :: ts) <=? List.length pre)%nat with false
          by (symmetry; apply Nat.leb_gt; rewrite length_app; simpl; lia).
        rewrite app_nth2, Nat.sub_diag by lia. simpl.
        destruct (String.eqb_spec p "+") as [-> | Hplus]; simpl.
        -- step_level IH pre ppre t "+" ts. split.
           ++ intros H. now constructor.
           ++ intros H. now apply accepts_cons_inv in H.
        -- destruct (String.eqb_spec p t) as [-> | Hne]; simpl.
           ++ step_level IH pre ppre t t ts. split.
              ** intros H. now constructor.
              ** intros H. now apply accepts_cons_inv in H.
           ++ split; [discriminate|]. intros H.
              apply accepts_cons_inv in H; [|assumption].
              destruct H as [[? | ?] _]; congruence.
Qed.

Lemma accepts_hash_final ts ps : Accepts ts ps -> ~ In "#" (removelast ps).
Proof.
  induction 1; simpl; try tauto.
  - destruct pattern; simpl in *; [tauto|].
    intros [E | Hin]; [discriminate | tauto].
  - destruct pattern; simpl in *; [tauto|].
    intros [E | Hin]; [congruence | tauto].
Qed.

End MatcherProofs.

(** C1. [_topic_matches] is a total boolean function (it returns on every
    pair of strings, so it never raises and is deterministic) that answers
    true exactly when the level-by-level wildcard semantics [Accepts] hold of
    the levels of topic and pattern; a pattern with ["#"] in a non-final
    level matches no topic; and the five documented examples evaluate as
    stated. *)
Theorem topic_matches_correct :
  (forall topic pattern,
      _topic_matches topic pattern = true
      <-> Accepts (levels topic) (levels pattern))
  /\ (forall topic pattern,
         hash_not_final pattern -> _topic_matches topic pattern = false)
  /\ _topic_matches "a/b/c" "a/+/c" = true
  /\ _topic_matches "a/b/c" "a/+" = false
  /\ _topic_matches "a/b/c" "a/#" = true
  /\ _topic_matches "a/b" "a/#" = true
  /\ _topic_matches "a" "#" = true.
Proof.
  split; [|split; [|repeat split; reflexivity]].
  - intros topic pattern. unfold _topic_matches, levels.
    destruct (Py.mem "#" (removelast (Py.split slash pattern))) eqn:Hmem.
    + split; [discriminate|]. intros H.
      apply accepts_hash_final in H. apply mem_In in Hmem. contradiction.
    + apply (match_loop_accepts _ [] []); [reflexivity|].
      intros Hin. apply mem_In in Hin. congruence.
  - intros topic pattern H. unfold _topic_matches.
    apply mem_In in H. unfold levels in H. now rewrite H.
Qed.

(** A malformed pattern at work: ["a/#/b"] has ["#"] in the middle. *)
Lemma topic_matches_correct_witness :
  hash_not_final "a/#/b" /\ _topic_matches "a/b" "a/#/b" = false.
Proof.
  assert (H : hash_not_final "a/#/b") by (cbv; tauto).
  split; [exact H|].
  exact (proj1 (proj2 topic_matches_correct) "a/b" "a/#/b" H).
Defined.

(** ** Running the monad *)

(** Unfolds the combinators so that a method applied to a world computes. *)
Ltac unfold_monad :=
  unfold exec, time_time, time_sleep, time_nap, max_sleep, client, put_nowait,
    put, get, log, bump, emit, try_except, bind, ret, raise, pending, gets,
    modify in *.

Lemma sent_app tr1 tr2 : sent (tr1 ++ tr2) = sent tr1 ++ sent tr2.
Proof.
  induction tr1 as [|ev tr1 IH]; [reflexivity|]. simpl.
  destruct ev as [[] []| | | | | |]; simpl; try assumption.
  destruct (rc =? MQTT_ERR_SUCCESS); simpl; congruence.
Qed.

Lemma publish_requests_app tr1 tr2 :
  publish_requests (tr1 ++ tr2) = publish_requests tr1 ++ publish_requests tr2.
Proof.
  induction tr1 as [|ev tr1 IH]; [reflexivity|]. simpl.
  destruct ev as [[] ?| | | | | |]; simpl; congruence.
Qed.


Lemma invocations_app tr1 tr2 :
  invocations (tr1 ++ tr2) = invocations tr1 ++ invocations tr2.
Proof.
  induction tr1 as [|ev tr1 IH]; [reflexivity|]. simpl.
  destruct ev; simpl; congruence.
Qed.

Lemma sleeps_app tr1 tr2 : sleeps (tr1 ++ tr2) = sleeps tr1 ++ sleeps tr2.
Proof.
  induction tr1 as [|ev tr1 IH]; [reflexivity|]. simpl.
  destruct ev; simpl; congruence.
Qed.

Lemma logged_app lvl tr1 tr2 :
  logged lvl (tr1 ++ tr2) = logged lvl tr1 ++ logged lvl tr2.
Proof.
  induction tr1 as [|ev tr1 IH]; [reflexivity|]. simpl.
  destruct ev as [| | | |[] ?| |]; destruct lvl; simpl; congruence.
Qed.

(** ** Publishing while disconnected *)

Lemma publish_disconnected_room w topic payload text qos retain :
  connected w = false -> rendering payload = Some text ->
  queue_full w = false ->
  publish topic payload qos retain w
  = (Return false,
     set_stats (Stats.incr_messages_queued (stats w))
       (set_message_queue
          (message_queue w ++ [queued topic text qos retain (clock w)]) w)).
Proof.
  intros Hc Hr Hf. unfold publish, _queue_message, to_payload_str.
  destruct payload as [[t|]|t]; simpl in Hr; inversion Hr; subst;
    unfold_monad; cbn; rewrite Hc; cbn; rewrite Hf; reflexivity.
Qed.

Lemma publish_disconnected_full w topic payload text qos retain :
  connected w = false -> rendering payload = Some text ->
  queue_full w = true ->
  publish topic payload qos retain w
  = (Return false,
     set_trace (trace w ++ [Log logging.ERROR "Failed to queue message"]) w).
Proof.
  intros Hc Hr Hf. unfold publish, _queue_message, to_payload_str.
  destruct payload as [[t|]|t]; simpl in Hr; inversion Hr; subst;
    unfold_monad; cbn; rewrite Hc; cbn; rewrite Hf; reflexivity.
Qed.

(** C3 (amended). A [publish] made while not connected, with a payload that
    serialises, makes no transport call and returns [False] without raising.
    If the queue has room the message is appended, stamped with the current
    time, and [messages_queued] goes up by one.  If the queue already holds
    [queue_size] messages the message is discarded: queue and statistics are
    unchanged, an ERROR line is logged, and the caller receives the same
    [False].  With capacity 2 and three publishes on a fresh disconnected
    client, all three calls return [False], the queue holds the first two
    messages and [messages_queued] is 2.  A payload that cannot be
    serialised is never queued nor sent: [publish] returns [False] and
    counts one error. *)
Theorem publish_while_disconnected :
  (forall w topic payload text qos retain,
      connected w = false ->
      rendering payload = Some text ->
      let r := publish topic payload qos retain w in
      fst r = Return false
      /\ calls (snd r) = calls w
      /\ publish_requests (trace (snd r)) = publish_requests (trace w)
      /\ (queue_full w = false ->
          message_queue (snd r)
          = message_queue w ++ [queued topic text qos retain (clock w)]
          /\ Stats.messages_queued (stats (snd r))
             = Stats.messages_queued (stats w) + 1
          /\ trace (snd r) = trace w)
      /\ (queue_full w = true ->
          message_queue (snd r) = message_queue w
          /\ stats (snd r) = stats w
          /\ trace (snd r)
             = trace w ++ [Log logging.ERROR "Failed to queue message"]))
  /\ (forall cfg now replies acks t1 p1 t2 p2 t3 p3 x1 x2 x3 qos retain,
         MQTTConfig.queue_size cfg = 2 ->
         rendering p1 = Some x1 -> rendering p2 = Some x2 ->
         rendering p3 = Some x3 ->
         let r1 := publish t1 p1 qos retain (init cfg now replies acks) in
         let r2 := publish t2 p2 qos retain (snd r1) in
         let r3 := publish t3 p3 qos retain (snd r2) in
         fst r1 = Return false /\ fst r2 = Return false
         /\ fst r3 = Return false
         /\ message_queue (snd r3)
            = [queued t1 x1 qos retain now; queued t2 x2 qos retain now]
         /\ Stats.messages_queued (stats (snd r3)) = 2)
  /\ (forall w topic payload qos retain,
         rendering payload = None ->
         let r := publish topic payload qos retain w in
         fst r = Return false
         /\ message_queue (snd r) = message_queue w
         /\ publish_requests (trace (snd r)) = publish_requests (trace w)
         /\ Stats.errors (stats (snd r)) = Stats.errors (stats w) + 1).
Proof.
  split; [|split].
  3: { intros w topic payload qos retain Hr r. subst r.
       destruct payload as [[t|]|t]; try discriminate.
       cbn. rewrite publish_requests_app, app_nil_r.
       repeat split; reflexivity. }
  - intros w topic payload text qos retain Hc Hr r. subst r.
    destruct (queue_full w) eqn:Hf.
    + rewrite (publish_disconnected_full w topic payload text) by assumption.
      cbn. rewrite publish_requests_app, app_nil_r.
      repeat split; try discriminate; reflexivity.
    + rewrite (publish_disconnected_room w topic payload text) by assumption.
      cbn. repeat split; try discriminate; reflexivity.
  - intros cfg now replies acks t1 p1 t2 p2 t3 p3 x1 x2 x3 qos retain
           Hsize H1 H2 H3 r1 r2 r3.
    subst r3 r2 r1.
    rewrite (publish_disconnected_room _ t1 p1 x1);
      [| reflexivity | assumption
       | unfold queue_full; cbn; rewrite Hsize; reflexivity ].
    cbn [snd].
    rewrite (publish_disconnected_room _ t2 p2 x2);
      [| reflexivity | assumption
       | unfold queue_full; cbn; rewrite Hsize; reflexivity ].
    cbn [snd].
    rewrite (publish_disconnected_full _ t3 p3 x3);
      [| reflexivity | assumption
       | unfold queue_full; cbn; rewrite Hsize; reflexivity ].
    cbn. repeat split; reflexivity.
Qed.

Lemma publish_while_disconnected_witness :
  connected Sample.fresh_client = false
  /\ rendering (Scalar "on") = Some "on"
  /\ fst (publish "plant/line" (Scalar "on") 1 false Sample.fresh_client)
     = Return false.
Proof.
  split; [reflexivity | split; [reflexivity|]].
  exact (proj1 (proj1 publish_while_disconnected Sample.fresh_client
                 "plant/line" (Scalar "on") "on" 1 false eq_refl eq_refl)).
Defined.

(** With capacity 2 the third publish made while disconnected finds the
    queue full.  The caller is told nothing: the call returns the very value
    the first, queued, publish returned; the message is in no queue and the
    [errors] statistic is still 0.  And a payload that [json.dumps] cannot
    serialise is not queued even though the queue has room. *)
Lemma publish_queue_full_unreported :
  let w0 := init Sample.small_queue 0 Sample.accepting Sample.silent in
  let r1 := publish "plant/line" (Scalar "m1") 1 false w0 in
  let r2 := publish "plant/line" (Scalar "m2") 1 false (snd r1) in
  let r3 := publish "plant/line" (Scalar "m3") 1 false (snd r2) in
  let r4 := publish "plant/line" (Structured None) 1 false w0 in
  queue_full (snd r2) = true
  /\ fst r3 = fst r1
  /\ fst r3 = Return false
  /\ message_queue (snd r3) = [Sample.m1; Sample.m2]
  /\ Stats.errors (stats (snd r3)) = 0
  /\ queue_full w0 = false
  /\ fst r4 = Return false
  /\ message_queue (snd r4) = [].
Proof. vm_compute. repeat split; reflexivity. Qed.

(** ** The queue worker *)

Lemma Qgtb_true a b : Qgtb a b = true <-> (b < a)%Q.
Proof.
  unfold Qgtb. rewrite negb_true_iff. split.
  - intros H. apply Qnot_le_lt. intros Hle.
    apply Qle_bool_iff in Hle. congruence.
  - intros H. destruct (Qle_bool a b) eqn:E; [|reflexivity].
    apply Qle_bool_iff in E. exfalso. apply (Qlt_not_le _ _ H E).
Qed.

Lemma Qgtb_false a b : Qgtb a b = false <-> (a <= b)%Q.
Proof.
  unfold Qgtb. rewrite negb_false_iff. apply Qle_bool_iff.
Qed.

(** Taking one entry out of a queue within capacity leaves room. *)
Lemma room_after_get w message rest :
  within_capacity w -> message_queue w = message :: rest ->
  queue_full (set_message_queue rest w) = false.
Proof.
  unfold within_capacity, queue_full. intros Hcap Hq. cbn.
  rewrite Hq in Hcap. cbn [List.length] in Hcap.
  destruct (0 <? MQTTConfig.queue_size (config w)) eqn:Hpos; [|reflexivity].
  apply Z.ltb_lt in Hpos. specialize (Hcap Hpos). cbn.
  apply Z.leb_gt. lia.
Qed.

(** The four ways an iteration on a non-empty queue can go. *)
Lemma queue_iteration_expired w message rest :
  message_queue w = message :: rest ->
  too_old w message (clock w) = true ->
  queue_iteration w
  = (Return tt,
     set_trace (trace w ++ [Log logging.WARNING "Dropping old message"])
       (set_message_queue rest w)).
Proof.
  intros Hq Hold. unfold queue_iteration, too_old in *.
  unfold_monad. cbn. rewrite Hq. cbn. rewrite Hold. reflexivity.
Qed.

Lemma queue_iteration_sent w message rest :
  message_queue w = message :: rest ->
  too_old w message (clock w) = false ->
  connected w = true ->
  accepts_call w (calls w) ->
  queue_iteration w
  = (Return tt,
     set_stats (Stats.incr_messages_sent (stats w))
       (set_calls (S (calls w))
          (set_trace (trace w ++ [Transport (request_of message)
                                            (Rc MQTT_ERR_SUCCESS)])
             (set_message_queue rest w)))).
Proof.
  intros Hq Hold Hc Hb. unfold queue_iteration, too_old, accepts_call in *.
  unfold_monad. cbn. rewrite Hq. cbn. rewrite Hold. cbn. rewrite Hc. cbn.
  rewrite Hb. reflexivity.
Qed.


Lemma queue_iteration_offline w message rest :
  message_queue w = message :: rest ->
  too_old w message (clock w) = false ->
  connected w = false ->
  within_capacity w ->
  queue_iteration w
  = (Return tt,
     set_clock (clock w + inject_Z 1)%Q
       (set_trace (trace w ++ [Sleep 1])
          (set_message_queue (rest ++ [message]) w))).
Proof.
  intros Hq Hold Hc Hcap.
  pose proof (room_after_get w message rest Hcap Hq) as Hroom.
  unfold queue_iteration, too_old in *.
  unfold_monad. unfold queue_full in *.
  cbn in *. rewrite Hq. cbn. rewrite Hold. cbn. rewrite Hc. cbn.
  rewrite Hroom. reflexivity.
Qed.

Lemma process_queue_step n w w1 :
  queue_running w = true ->
  queue_iteration w = (Return tt, w1) ->
  _process_queue (S n) w = _process_queue n w1.
Proof.
  intros Hrun Hit. cbn [_process_queue]. unfold bind at 1. unfold gets at 1.
  rewrite Hrun. unfold bind at 1. rewrite Hit. reflexivity.
Qed.

Lemma process_queue_observed w :
  queue_running w = true -> _process_queue 0 w = (Pending, w).
Proof.
  intros Hrun. cbn [_process_queue]. unfold_monad. now rewrite Hrun.
Qed.





(** ** Message expiry *)

Lemma too_old_after w message now :
  (QueuedMessage.timestamp message
   + inject_Z (MQTTConfig.message_timeout (config w)) < now)%Q ->
  too_old w message now = true.
Proof.
  intros H. unfold too_old. apply Qgtb_true. lra.
Qed.

Lemma too_old_until w message now :
  (now <= QueuedMessage.timestamp message
          + inject_Z (MQTTConfig.message_timeout (config w)))%Q ->
  too_old w message now = false.
Proof.
  intros H. unfold too_old. apply Qgtb_false. lra.
Qed.

(** *** Float subtraction at readings since the epoch *)

Lemma two_power_pos e : (0 < (2 # 1) ^ e)%Q.
Proof. apply Qpower_0_lt. reflexivity. Qed.

Lemma two_power_nonneg n : 0 <= n -> ((2 # 1) ^ n == inject_Z (2 ^ n))%Q.
Proof.
  intros Hn. change (2 # 1)%Q with (inject_Z 2).
  symmetry. apply Zpower_Qpower. exact Hn.
Qed.

(** A float written with a smaller exponent. *)
Lemma scale_exponent m e e' :
  e' <= e ->
  (inject_Z m * (2 # 1) ^ e == inject_Z (m * 2 ^ (e - e')) * (2 # 1) ^ e')%Q.
Proof.
  intros Hle. replace e with ((e - e') + e') at 1 by lia.
  rewrite Qpower_plus by discriminate.
  rewrite two_power_nonneg by lia.
  rewrite inject_Z_mult. ring.
Qed.

(** Comparing two multiples of one power of two compares the integers. *)
Lemma scaled_le m n e :
  (inject_Z m * (2 # 1) ^ e <= inject_Z n * (2 # 1) ^ e)%Q -> m <= n.
Proof.
  intros H. apply Qmult_le_r in H; [|apply two_power_pos].
  rewrite Zle_Qle. exact H.
Qed.

(** The difference of two floats, the larger at most twice the smaller, is a
    float: it is a multiple of the smaller of their two units and no larger
    than either of them. *)
Lemma sterbenz a b :
  binary64 a -> binary64 b -> (b <= a <= 2 * b)%Q -> binary64 (a - b).
Proof.
  intros [ma [ea [Hma [Hea Ha]]]] [mb [eb [Hmb [Heb Hb]]]] [Hlow Hhigh].
  set (e := Z.min ea eb).
  assert (Ha' := scale_exponent ma ea e ltac:(lia)).
  assert (Hb' := scale_exponent mb eb e ltac:(lia)).
  set (na := ma * 2 ^ (ea - e)) in *. set (nb := mb * 2 ^ (eb - e)) in *.
  assert (Hdiff : (a - b == inject_Z (na - nb) * (2 # 1) ^ e)%Q).
  { rewrite Ha, Hb, Ha', Hb'. unfold Zminus.
    rewrite inject_Z_plus, inject_Z_opp. ring. }
  exists (na - nb), e. split; [|split; [lia | exact Hdiff]].
  assert (Hnonneg : 0 <= na - nb).
  { apply (scaled_le 0 (na - nb) e). rewrite <- Hdiff.
    change (inject_Z 0) with 0%Q. lra. }
  assert (Hb0 : (0 <= b)%Q) by lra.
  destruct (Z.le_ge_cases ea eb) as [Hmin | Hmin].
  - assert (na = ma)
      by (unfold na, e; rewrite Z.min_l by lia; rewrite Z.sub_diag; lia).
    assert (na - nb <= na).
    { apply (scaled_le (na - nb) na e). rewrite <- Hdiff, <- Ha', <- Ha.
      lra. }
    lia.
  - assert (nb = mb)
      by (unfold nb, e; rewrite Z.min_r by lia; rewrite Z.sub_diag; lia).
    assert (na - nb <= nb).
    { apply (scaled_le (na - nb) nb e). rewrite <- Hdiff, <- Hb', <- Hb.
      lra. }
    lia.
Qed.

(** Rounding a float gives the float. *)
Lemma rounds_exact x y : binary64 x -> rounds x y -> (y == x)%Q.
Proof.
  intros Hx [_ Hnear]. specialize (Hnear x Hx).
  assert (Hzero : (Qabs (x - x) == 0)%Q)
    by (setoid_replace (x - x)%Q with 0%Q by ring; reflexivity).
  rewrite Hzero in Hnear.
  apply Qabs_Qle_condition in Hnear. lra.
Qed.

Lemma Qgtb_compat a a' b : (a == a')%Q -> Qgtb a b = Qgtb a' b.
Proof.
  intros E. destruct (Qgtb a' b) eqn:H.
  - apply Qgtb_true. apply Qgtb_true in H. lra.
  - apply Qgtb_false. apply Qgtb_false in H. lra.
Qed.

(** C4 (amended). A queued message with enqueue timestamp T, taken from the
    queue by the worker at a clock reading between T and 2 T that is strictly
    greater than T + D, D being [message_timeout], is never sent: the
    iteration makes no publish request, does not put the message back, and
    logs a WARNING line; no statistic changes.  A message taken at such a
    reading up to and including T + D is not dropped: with the client
    connected and the transport accepting, it is sent.  At such readings the
    age the code computes in floating point is the exact one: whatever float
    nearest to the difference of the two floats the subtraction yields, the
    test of the code is the test [too_old]. *)
Theorem expired_message_dropped :
  (forall w message rest,
      message_queue w = message :: rest ->
      exact_age message (clock w) ->
      (QueuedMessage.timestamp message
       + inject_Z (MQTTConfig.message_timeout (config w)) < clock w)%Q ->
      let r := queue_iteration w in
      fst r = Return tt
      /\ publish_requests (trace (snd r)) = publish_requests (trace w)
      /\ message_queue (snd r) = rest
      /\ stats (snd r) = stats w
      /\ logged logging.WARNING (trace (snd r))
         = logged logging.WARNING (trace w) ++ ["Dropping old message"])
  /\ (forall w message rest,
         message_queue w = message :: rest ->
         exact_age message (clock w) ->
         (clock w <= QueuedMessage.timestamp message
                     + inject_Z (MQTTConfig.message_timeout (config w)))%Q ->
         connected w = true ->
         accepts_call w (calls w) ->
         let r := queue_iteration w in
         sent (trace (snd r)) = sent (trace w) ++ [request_of message]
         /\ message_queue (snd r) = rest)
  /\ (forall w message now age,
         binary64 now ->
         binary64 (QueuedMessage.timestamp message) ->
         exact_age message now ->
         rounds (now - QueuedMessage.timestamp message) age ->
         Qgtb age (inject_Z (MQTTConfig.message_timeout (config w)))
         = too_old w message now).
Proof.
  split; [|split].
  - intros w message rest Hq _ Hlate r. subst r.
    rewrite (queue_iteration_expired w message rest Hq)
      by (now apply too_old_after).
    cbn. rewrite publish_requests_app, logged_app, app_nil_r.
    repeat split; reflexivity.
  - intros w message rest Hq _ Hintime Hc Hb r. subst r.
    rewrite (queue_iteration_sent w message rest Hq)
      by (try apply too_old_until; assumption).
    cbn. rewrite sent_app. split; reflexivity.
  - intros w message now age Hnow Hstamp Hrange Hage. unfold too_old.
    apply Qgtb_compat, rounds_exact; [|exact Hage].
    now apply sterbenz.
Qed.

Lemma expired_message_dropped_witness :
  let w := Sample.online Sample.accepting [Sample.stamped] 1031 in
  let r := queue_iteration w in
  exact_age Sample.stamped (clock w)
  /\ fst r = Return tt
  /\ publish_requests (trace (snd r)) = publish_requests (trace w)
  /\ message_queue (snd r) = []
  /\ stats (snd r) = stats w
  /\ logged logging.WARNING (trace (snd r))
     = logged logging.WARNING (trace w) ++ ["Dropping old message"].
Proof.
  assert (Hexact : exact_age Sample.stamped
                     (clock (Sample.online Sample.accepting
                               [Sample.stamped] 1031)))
    by (split; vm_compute; discriminate).
  split; [exact Hexact|].
  apply (proj1 expired_message_dropped
           (Sample.online Sample.accepting [Sample.stamped] 1031)
           Sample.stamped []).
  - reflexivity.
  - exact Hexact.
  - reflexivity.
Defined.

(** A message stamped 1000 with a timeout of 30, taken from the queue at
    time 1030 = T + D, is sent.  Taken at time 1031 it is dropped, and the
    statistics are what they were: nothing counts the drop. *)
Lemma sent_at_exact_timeout :
  let at_deadline := Sample.online Sample.accepting [Sample.stamped] 1030 in
  let past_deadline := Sample.online Sample.accepting [Sample.stamped] 1031 in
  (QueuedMessage.timestamp Sample.stamped
   + inject_Z (MQTTConfig.message_timeout (config at_deadline))
   <= clock at_deadline)%Q
  /\ sent (trace (exec queue_iteration at_deadline))
     = [request_of Sample.stamped]
  /\ sent (trace (exec queue_iteration past_deadline)) = []
  /\ stats (exec queue_iteration past_deadline) = stats past_deadline.
Proof.
  split; [vm_compute; discriminate|].
  vm_compute. repeat split; reflexivity.
Qed.

(** ** Frame reasoning: what a method leaves alone *)

Section Keeps.
Context {X : Type} (f : World -> X).

Lemma keeps_ret {A} (a : A) : keeps f (ret a).
Proof. intros w. reflexivity. Qed.

Lemma keeps_raise {A} e : keeps f (@raise A e).
Proof. intros w. reflexivity. Qed.

Lemma keeps_pending {A} : keeps f (@pending A).
Proof. intros w. reflexivity. Qed.

Lemma keeps_gets {A} (g : World -> A) : keeps f (gets g).
Proof. intros w. reflexivity. Qed.

Lemma keeps_modify g : (forall w, f (g w) = f w) -> keeps f (modify g).
Proof. intros H w. apply H. Qed.

Lemma keeps_bind {A B} (m : M A) (k : A -> M B) :
  keeps f m -> (forall a, keeps f (k a)) -> keeps f (bind m k).
Proof.
  intros Hm Hk w. unfold bind. specialize (Hm w).
  destruct (m w) as [[a | e |] w1]; simpl in *; try assumption.
  rewrite Hk. assumption.
Qed.

Lemma keeps_try {A} (m : M A) handler :
  keeps f m -> (forall e, keeps f (handler e)) -> keeps f (try_except m handler).
Proof.
  intros Hm Hh w. unfold try_except. specialize (Hm w).
  destruct (m w) as [[a | e |] w1]; simpl in *; try assumption.
  rewrite Hh. assumption.
Qed.

Lemma keeps_for_each {A} (xs : list A) body :
  (forall x, keeps f (body x)) -> keeps f (for_each xs body).
Proof.
  intros Hb. induction xs as [|x xs IH]; simpl.
  - apply keeps_ret.
  - apply keeps_bind; auto.
Qed.

End Keeps.

(** Observations that the environment primitives leave alone are those that
    do not read the trace, the clock, the call counter or the queue. *)
Ltac keeps_step :=
  first
    [ apply keeps_ret | apply keeps_raise | apply keeps_pending
    | apply keeps_gets
    | apply keeps_bind; [|intros ?]
    | apply keeps_try; [|intros ?]
    | apply keeps_for_each; intros ?
    | apply keeps_modify; intros ?; reflexivity
    | match goal with
      | |- keeps _ (if ?b then _ else _) => destruct b
      | |- keeps _ (match ?x with _ => _ end) => destruct x
      end ].

Ltac keeps_prim :=
  unfold time_time, time_sleep, time_nap, json_loads, put_nowait, put, get,
    log, bump, emit;
  repeat keeps_step.

Lemma keeps_client {X} (f : World -> X) req :
  (forall w n tr, f (set_calls n (set_trace tr w)) = f w) ->
  keeps f (client req).
Proof.
  intros H w. unfold client. destruct (broker w (calls w)); simpl; apply H.
Qed.

Lemma link_client req : keeps link (client req).
Proof. apply keeps_client. reflexivity. Qed.

Lemma link_queue_message topic payload qos retain :
  keeps link (_queue_message topic payload qos retain).
Proof. unfold _queue_message. keeps_prim. Qed.

Lemma link_publish topic payload qos retain :
  keeps link (publish topic payload qos retain).
Proof.
  unfold publish, to_payload_str.
  repeat first [apply link_client | apply link_queue_message | keeps_prim].
Qed.

Lemma link_subscribe topic qos callback :
  keeps link (subscribe topic qos callback).
Proof.
  unfold subscribe. repeat first [apply link_client | keeps_prim].
Qed.

Lemma link_unsubscribe topic : keeps link (unsubscribe topic).
Proof.
  unfold unsubscribe. repeat first [apply link_client | keeps_prim].
Qed.

Lemma link_resubscribe_all : keeps link _resubscribe_all.
Proof.
  unfold _resubscribe_all. repeat first [apply link_client | keeps_prim].
Qed.

Lemma link_start_queue_processor : keeps link _start_queue_processor.
Proof. unfold _start_queue_processor. keeps_prim. Qed.

Lemma link_stop_queue_processor : keeps link _stop_queue_processor.
Proof. unfold _stop_queue_processor. keeps_prim. Qed.

Lemma link_queue_iteration : keeps link queue_iteration.
Proof.
  unfold queue_iteration. repeat first [apply link_client | keeps_prim].
Qed.

Lemma link_call callback topic data : keeps link (call callback topic data).
Proof. unfold call. keeps_prim. Qed.

Lemma link_on_message message : keeps link (_on_message message).
Proof.
  unfold _on_message. repeat first [apply link_call | keeps_prim].
Qed.

(** ** The connection invariant *)

Section Preserves.
Context (I : World -> Prop).

Lemma preserves_bind {A B} (m : M A) (k : A -> M B) :
  preserves I m -> (forall a, preserves I (k a)) -> preserves I (bind m k).
Proof.
  intros Hm Hk w Hw. unfold bind. specialize (Hm w Hw).
  destruct (m w) as [[a | e |] w1]; simpl in *; try assumption.
  now apply Hk.
Qed.

Lemma preserves_try {A} (m : M A) handler :
  preserves I m -> (forall e, preserves I (handler e)) ->
  preserves I (try_except m handler).
Proof.
  intros Hm Hh w Hw. unfold try_except. specialize (Hm w Hw).
  destruct (m w) as [[a | e |] w1]; simpl in *; try assumption.
  now apply Hh.
Qed.

Lemma preserves_ret {A} (a : A) : preserves I (ret a).
Proof. intros w Hw. exact Hw. Qed.

Lemma preserves_pending {A} : preserves I (@pending A).
Proof. intros w Hw. exact Hw. Qed.

End Preserves.

Lemma consistent_of_link w w' : link w' = link w -> consistent w -> consistent w'.
Proof.
  unfold link, consistent. intros H Hw. inversion H as [[Hc Hs]].
  rewrite Hc, Hs. exact Hw.
Qed.

Lemma preserves_of_keeps {A} (m : M A) : keeps link m -> preserves consistent m.
Proof. intros H w Hw. eapply consistent_of_link; [apply H | exact Hw]. Qed.

Lemma on_connect_link rc w :
  link (snd (_on_connect rc w))
  = if rc =? 0 then (true, ConnectionState.CONNECTED)
    else (false, ConnectionState.ERROR).
Proof.
  unfold _on_connect. destruct (rc =? 0).
  - change (link (snd ((_resubscribe_all ;; _start_queue_processor)
                         (set_state ConnectionState.CONNECTED
                            (set_connected true w))))
            = (true, ConnectionState.CONNECTED)).
    rewrite (keeps_bind link _ _ link_resubscribe_all
               (fun _ => link_start_queue_processor)).
    reflexivity.
  - reflexivity.
Qed.

Lemma on_connect_consistent rc w : consistent (snd (_on_connect rc w)).
Proof.
  pose proof (on_connect_link rc w) as H. unfold link in H.
  destruct (rc =? 0); inversion H as [[Hc Hs]]; unfold consistent;
    rewrite Hc; [intros _; exact Hs | discriminate].
Qed.

Lemma network_thread_consistent : preserves consistent network_thread.
Proof.
  intros w Hw. unfold network_thread.
  destruct (connack w (calls w)); simpl;
    [apply on_connect_consistent | exact Hw].
Qed.

Lemma network_thread_returns w : fst (network_thread w) = Return tt.
Proof. unfold network_thread. now destruct (connack w (calls w)). Qed.

Lemma reconnect_attempt_link delay cap :
  keeps link
    (try_except
       (time_sleep delay ;; client Reconnect ;; ret (Z.min (delay * 2) cap))
       (fun e => log logging.ERROR "Reconnect failed" ;; ret delay)).
Proof. repeat first [apply link_client | keeps_prim]. Qed.

Lemma reconnect_loop_consistent n :
  forall delay, preserves consistent (reconnect_loop n delay).
Proof.
  induction n as [|n IH]; intros delay; cbn [reconnect_loop];
    (apply preserves_bind; [apply preserves_of_keeps, keeps_gets | intros cfg]);
    (apply preserves_bind; [apply preserves_of_keeps, keeps_gets | intros c]);
    destruct (MQTTConfig.auto_reconnect cfg && negb c);
    try apply preserves_ret; try apply preserves_pending.
  apply preserves_bind;
    [apply preserves_of_keeps, reconnect_attempt_link | intros delay'].
  apply preserves_bind; [apply network_thread_consistent | intros _].
  apply IH.
Qed.

Lemma handle_reconnect_consistent n : preserves consistent (_handle_reconnect n).
Proof.
  unfold _handle_reconnect.
  apply preserves_bind; [apply preserves_of_keeps; keeps_prim | intros _].
  apply preserves_bind; [apply preserves_of_keeps, keeps_gets | intros d].
  apply reconnect_loop_consistent.
Qed.

Lemma on_disconnect_consistent n rc w : consistent (snd (_on_disconnect n rc w)).
Proof.
  unfold _on_disconnect.
  set (rest := (_stop_queue_processor ;;
                cfg <- gets config ;;
                if MQTTConfig.auto_reconnect cfg && negb (rc =? 0)
                then _handle_reconnect n else ret tt)).
  assert (Hrest : preserves consistent rest).
  { apply preserves_bind;
      [apply preserves_of_keeps, link_stop_queue_processor | intros _].
    apply preserves_bind; [apply preserves_of_keeps, keeps_gets | intros cfg].
    destruct (MQTTConfig.auto_reconnect cfg && negb (rc =? 0));
      [apply handle_reconnect_consistent | apply preserves_ret]. }
  destruct (rc =? 0).
  - change (consistent
              (snd (rest (set_state ConnectionState.DISCONNECTED
                            (set_connected false w))))).
    apply Hrest. unfold consistent. cbn. discriminate.
  - change (consistent
              (snd (rest (set_trace
                            (trace w ++ [Log logging.WARNING
                                             "Unexpected disconnect"])
                            (set_state ConnectionState.RECONNECTING
                               (set_connected false w)))))).
    apply Hrest. unfold consistent. cbn. discriminate.
Qed.

Lemma disconnect_consistent : preserves consistent disconnect.
Proof.
  intros w Hw. unfold disconnect, _stop_queue_processor.
  unfold_monad. cbn.
  destruct (queue_thread w); cbn;
    destruct (broker w (calls w)); cbn;
    try destruct (broker w (S (calls w))); cbn;
    unfold consistent in *; cbn; solve [discriminate | exact Hw].
Qed.

Lemma Qltb_false a b : Qltb a b = false <-> (b <= a)%Q.
Proof.
  unfold Qltb. rewrite negb_false_iff. apply Qle_bool_iff.
Qed.

(** What the polls leave alone: all but the clock and the naps recorded in
    the trace. *)
Lemma keeps_poll_connected {X} (f : World -> X) polls :
  (forall w seconds, f (set_trace (trace w ++ [Nap seconds]) w) = f w) ->
  (forall w c, f (set_clock c w) = f w) ->
  forall start_time timeout, keeps f (poll_connected polls start_time timeout).
Proof.
  intros Htrace Hclock start_time timeout.
  induction polls as [|polls IH]; cbn [poll_connected].
  - keeps_prim.
  - apply keeps_bind; [apply keeps_gets | intros c].
    apply keeps_bind; [apply keeps_gets | intros now].
    destruct (negb c && Qltb (now - start_time) (inject_Z timeout));
      [| apply keeps_ret].
    apply keeps_bind; [| intros _; exact IH].
    unfold time_nap. destruct (Qltb (1 # 10) 0); [apply keeps_raise|].
    apply keeps_bind; [| intros _].
    + unfold emit. apply keeps_modify. intros w. apply Htrace.
    + apply keeps_modify. intros w. apply Hclock.
Qed.

(** Ten polls a second use up the timeout: the loop ends. *)
Lemma poll_connected_returns polls : forall start_time timeout w,
  (inject_Z timeout
   <= clock w - start_time + inject_Z (Z.of_nat polls) * (1 # 10))%Q ->
  fst (poll_connected polls start_time timeout w) = Return tt.
Proof.
  induction polls as [|polls IH]; intros start_time timeout w Hfuel;
    cbn [poll_connected]; unfold bind, time_time, gets; cbn -[poll_connected];
    destruct (negb (connected w)
              && Qltb (clock w - start_time) (inject_Z timeout)) eqn:Hguard;
    try reflexivity.
  - exfalso. apply andb_true_iff in Hguard. destruct Hguard as [_ Hlt].
    assert (Hle : Qltb (clock w - start_time) (inject_Z timeout) = false)
      by (apply Qltb_false;
          change (inject_Z (Z.of_nat 0)) with 0%Q in Hfuel; lra).
    congruence.
  - unfold time_nap, emit, modify. cbn -[poll_connected].
    apply IH. cbn [clock set_clock set_trace].
    rewrite Nat2Z.inj_succ in Hfuel. unfold Z.succ in Hfuel.
    rewrite inject_Z_plus in Hfuel. change (inject_Z 1) with 1%Q in Hfuel.
    lra.
Qed.

Lemma clock_network_thread : keeps clock network_thread.
Proof.
  intros w. unfold network_thread.
  destruct (connack w (calls w)) as [rc|]; [|reflexivity]. simpl.
  revert w. change (keeps clock (_on_connect rc)).
  unfold _on_connect, _resubscribe_all, _start_queue_processor.
  repeat first [apply keeps_client; reflexivity | keeps_prim].
Qed.

Lemma wait_for_connection_returns timeout w :
  fst (wait_for_connection timeout w) = Return tt.
Proof.
  unfold wait_for_connection, bind, time_time, gets.
  pose proof (network_thread_returns w) as H.
  pose proof (clock_network_thread w) as Hclock.
  destruct (network_thread w) as [r w1]. simpl in H, Hclock. subst r.
  apply poll_connected_returns. rewrite Hclock.
  destruct (Z.le_gt_cases 0 timeout) as [Hpos | Hneg].
  - rewrite Z2Nat.id by lia. rewrite inject_Z_mult.
    change (inject_Z 10) with (10 # 1)%Q. lra.
  - replace (Z.to_nat (timeout * 10)) with 0%nat by lia.
    assert (inject_Z timeout <= 0)%Q
      by (change 0%Q with (inject_Z 0); rewrite <- Zle_Qle; lia).
    change (inject_Z (Z.of_nat 0)) with 0%Q. lra.
Qed.


Lemma wait_for_connection_consistent timeout :
  preserves consistent (wait_for_connection timeout).
Proof.
  unfold wait_for_connection.
  apply preserves_bind; [apply preserves_of_keeps, keeps_gets | intros start].
  apply preserves_bind; [apply network_thread_consistent | intros _].
  apply preserves_of_keeps. apply keeps_poll_connected; reflexivity.
Qed.

Lemma connect_consistent : preserves consistent connect.
Proof.
  intros w Hw. unfold connect.
  unfold exec, time_time, time_sleep, client, log, bump, emit, try_except,
    bind, ret, raise, gets, modify.
  cbn -[wait_for_connection].
  destruct (connected w) eqn:Hc; cbn -[wait_for_connection].
  - unfold consistent in *. cbn. exact Hw.
  - destruct (broker w (calls w)); cbn -[wait_for_connection];
      [| unfold consistent; cbn; rewrite Hc; discriminate].
    destruct (broker w (S (calls w))); cbn -[wait_for_connection];
      [| unfold consistent; cbn; rewrite Hc; discriminate].
    match goal with |- context [wait_for_connection 10 ?w2] =>
      pose proof (wait_for_connection_returns 10 w2) as Hr;
      pose proof (wait_for_connection_consistent 10 w2) as Hi;
      destruct (wait_for_connection 10 w2) as [r w3]
    end.
    simpl in Hr, Hi. subst r.
    assert (Hw3 : consistent w3)
      by (apply Hi; unfold consistent; cbn; rewrite Hc; discriminate).
    destruct (connected w3) eqn:Hc3; cbn; [exact Hw3|].
    unfold consistent in *. cbn. rewrite Hc3. discriminate.
Qed.

Lemma reconnect_consistent : preserves consistent reconnect.
Proof.
  unfold reconnect.
  apply preserves_bind; [apply disconnect_consistent | intros _].
  apply preserves_bind; [apply preserves_of_keeps; keeps_prim | intros _].
  apply connect_consistent.
Qed.

Lemma step_consistent a w : consistent w -> consistent (step a w).
Proof.
  intros Hw. destruct a; simpl.
  - now apply connect_consistent.
  - now apply disconnect_consistent.
  - now apply reconnect_consistent.
  - now apply (preserves_of_keeps _ (link_publish topic payload qos retain)).
  - now apply (preserves_of_keeps _ (link_subscribe topic qos callback)).
  - now apply (preserves_of_keeps _ (link_unsubscribe topic)).
  - apply on_connect_consistent.
  - apply on_disconnect_consistent.
  - now apply (preserves_of_keeps _ (link_on_message message)).
  - destruct (queue_running w); [|exact Hw].
    now apply (preserves_of_keeps _ link_queue_iteration).
  - exact Hw.
Qed.

(** Calls that are not interleaved keep the connection invariant -
    [connected] is True only while [state] is CONNECTED: it holds of a
    freshly constructed client and is preserved by [connect], [disconnect],
    [_on_connect] and [_on_disconnect] (with the reconnection loop it may
    start), whatever the transport replies, and by every other call,
    callback and worker iteration, each run to its end. *)
Lemma sequential_calls_keep_link_consistent :
  (forall cfg now replies acks, consistent (init cfg now replies acks))
  /\ (forall w, consistent w ->
        consistent (exec connect w)
        /\ consistent (exec disconnect w)
        /\ (forall rc, consistent (exec (_on_connect rc) w))
        /\ (forall n rc, consistent (exec (_on_disconnect n rc) w)))
  /\ (forall a w, consistent w -> consistent (step a w))
  /\ (forall w, reachable w ->
        is_connected w = true -> get_state w = ConnectionState.CONNECTED).
Proof.
  split; [|split; [|split]].
  - intros cfg now replies acks. unfold consistent. cbn. discriminate.
  - intros w Hw. repeat split.
    + now apply connect_consistent.
    + now apply disconnect_consistent.
    + intros rc. apply on_connect_consistent.
    + intros n rc. apply on_disconnect_consistent.
  - apply step_consistent.
  - intros w Hreach. induction Hreach as [cfg now replies acks | a w Hr IH].
    + cbn. discriminate.
    + apply step_consistent. exact IH.
Qed.

(** The two parts of [connect], run one after the other, are [connect]. *)
Lemma connect_in_two_parts w :
  connect w
  = (outcome <- connect_locked ;;
     match outcome with
     | Some result => ret result
     | None => connect_unlocked
     end) w.
Proof.
  unfold connect, connect_locked, connect_unlocked.
  unfold log, emit, try_except, bind, ret, gets, modify.
  cbn -[wait_for_connection client].
  now destruct (connected w).
Qed.

(** C9. [connect] is called on a disconnected client.  It sets CONNECTING
    and releases the lock; the network thread then delivers a successful
    CONNACK, and [_on_connect] sets [connected] and CONNECTED; the call of
    [client.connect] raises, and the [except] clause of [connect] moves the
    state to ERROR without clearing [connected].  The client is left with
    [is_connected()] True while [get_state()] reports ERROR, although the
    invariant held before each of the three steps. *)
Theorem connect_failure_leaves_connected_flag :
  let w0 := init MQTTConfig.default 0 Sample.down_once Sample.silent in
  let w1 := exec connect_locked w0 in
  let w2 := step (NetOnConnect 0) w1 in
  let w3 := exec connect_unlocked w2 in
  fst (connect_locked w0) = Return None
  /\ consistent w0 /\ consistent w1 /\ consistent w2
  /\ link w2 = (true, ConnectionState.CONNECTED)
  /\ fst (connect_unlocked w2) = Return false
  /\ is_connected w3 = true
  /\ get_state w3 = ConnectionState.ERROR
  /\ ~ consistent w3.
Proof.
  cbv zeta. split; [reflexivity|].
  split; [unfold consistent; cbn; discriminate|].
  split; [unfold consistent; cbn; discriminate|].
  split; [unfold consistent; cbn; reflexivity|].
  split; [reflexivity|].
  split; [reflexivity|].
  split; [reflexivity|].
  split; [reflexivity|].
  unfold consistent. cbn. intros H. specialize (H eq_refl). discriminate.
Qed.

(** ** Dispatch of inbound messages *)

(** Appending events is all a dispatch does to the world. *)
Lemma set_trace_nil w : set_trace (trace w ++ []) w = w.
Proof. destruct w. unfold set_trace. cbn. now rewrite app_nil_r. Qed.

Lemma set_trace_app w evs1 evs2 :
  set_trace (trace (set_trace (trace w ++ evs1) w) ++ evs2)
            (set_trace (trace w ++ evs1) w)
  = set_trace (trace w ++ evs1 ++ evs2) w.
Proof. unfold set_trace. cbn. now rewrite app_assoc. Qed.

Lemma guarded_call label callback topic data w :
  try_except (call callback topic data)
             (fun e => log logging.ERROR label) w
  = (Return tt,
     set_trace (trace w ++ call_events label callback topic data) w).
Proof.
  unfold call, call_events. destruct callback as [cb|].
  - unfold_monad. cbn. destruct (cb_run cb topic data); cbn;
      [reflexivity|]. unfold set_trace. cbn. now rewrite <- app_assoc.
  - reflexivity.
Qed.

Lemma wildcard_dispatch topic data entries : forall w,
  for_each entries (fun entry =>
    if _topic_matches topic (fst entry) then
      try_except (call (snd entry) topic data)
                 (fun e => log logging.ERROR "Wildcard callback error")
    else ret tt) w
  = (Return tt,
     set_trace (trace w ++ wildcard_events topic data entries) w).
Proof.
  induction entries as [|entry entries IH]; intros w.
  - cbn. unfold ret. now rewrite set_trace_nil.
  - cbn [for_each wildcard_events flat_map]. unfold bind at 1.
    destruct (_topic_matches topic (fst entry)).
    + rewrite guarded_call, IH, set_trace_app. reflexivity.
    + unfold ret at 1. rewrite IH. reflexivity.
Qed.

Lemma on_message_dispatched w message data :
  payload_data message = Some data ->
  _on_message message w
  = (Return tt,
     set_trace
       (trace w ++ dispatch_events w (MQTTMessage.topic message) data)
       (set_stats (Stats.incr_messages_received (stats w)) w)).
Proof.
  intros Hd. unfold payload_data in Hd.
  destruct (MQTTMessage.decoded message) as [text|] eqn:Hdec; [|discriminate].
  unfold _on_message, dispatch_events, exact_events. rewrite Hdec.
  set (topic := MQTTMessage.topic message).
  unfold try_except at 1. unfold bind at 1. unfold ret at 1.
  unfold bind at 1. unfold bump, modify at 1.
  unfold bind at 1.
  assert (Hjson :
    try_except
      (value <- json_loads (MQTTMessage.parsed message) ;; ret (Parsed value))
      (fun e => match e with
                | JSONDecodeError => ret (Text text)
                | _ => raise e
                end)
      (set_stats (Stats.incr_messages_received (stats w)) w)
    = (Return data, set_stats (Stats.incr_messages_received (stats w)) w)).
  { destruct (MQTTMessage.parsed message); inversion Hd; reflexivity. }
  rewrite Hjson.
  unfold bind at 1. unfold gets at 1. cbn [subscriptions set_stats].
  unfold bind at 1.
  destruct (Dict.get topic (subscriptions w)) as [sub|].
  - destruct (Subscription.callback sub) as [cb|].
    + rewrite guarded_call. unfold bind at 1. unfold gets at 1.
      rewrite wildcard_dispatch, set_trace_app. reflexivity.
    + unfold ret at 1. unfold bind at 1. unfold gets at 1.
      rewrite wildcard_dispatch. reflexivity.
  - unfold ret at 1. unfold bind at 1. unfold gets at 1.
    rewrite wildcard_dispatch. reflexivity.
Qed.

Lemma on_message_undecodable w message :
  MQTTMessage.decoded message = None ->
  _on_message message w
  = (Return tt,
     set_stats (Stats.incr_errors (stats w))
       (set_trace (trace w ++ [Log logging.ERROR "Message processing error"])
          w)).
Proof.
  intros Hd. unfold _on_message. rewrite Hd. reflexivity.
Qed.

(** [json.loads] raises something other than [JSONDecodeError]: the outer
    handler takes over, after the message was counted as received. *)
Lemma on_message_refused w message text :
  MQTTMessage.decoded message = Some text ->
  MQTTMessage.parsed message = json.Refused ->
  _on_message message w
  = (Return tt,
     set_stats
       (Stats.incr_errors (Stats.incr_messages_received (stats w)))
       (set_trace (trace w ++ [Log logging.ERROR "Message processing error"])
          w)).
Proof.
  intros Hd Hp. unfold _on_message. rewrite Hd, Hp. reflexivity.
Qed.

(** A message gets to the callbacks, or its processing fails before. *)
Lemma payload_data_none message :
  payload_data message = None ->
  MQTTMessage.decoded message = None
  \/ exists text, MQTTMessage.decoded message = Some text
                  /\ MQTTMessage.parsed message = json.Refused.
Proof.
  unfold payload_data.
  destruct (MQTTMessage.decoded message) as [text|]; [|now left].
  destruct (MQTTMessage.parsed message); try discriminate.
  intros _. right. now exists text.
Qed.

(** Without a payload to hand over no callback runs and one error is
    counted. *)
Lemma on_message_failed w message :
  payload_data message = None ->
  fst (_on_message message w) = Return tt
  /\ invocations (trace (exec (_on_message message) w)) = invocations (trace w)
  /\ Stats.errors (stats (exec (_on_message message) w))
     = Stats.errors (stats w) + 1.
Proof.
  intros Hnone. unfold exec.
  destruct (payload_data_none message Hnone) as [Hd | [text [Hd Hp]]].
  - rewrite (on_message_undecodable w message Hd). cbn.
    rewrite invocations_app, app_nil_r. repeat split; reflexivity.
  - rewrite (on_message_refused w message text Hd Hp). cbn.
    rewrite invocations_app, app_nil_r. repeat split; reflexivity.
Qed.

Lemma invocations_call_events label callback topic data :
  invocations (call_events label callback topic data) = callable callback.
Proof.
  destruct callback as [cb|]; cbn; [|reflexivity].
  now destruct (cb_run cb topic data).
Qed.

Lemma logged_call_events label callback topic data :
  logged logging.ERROR (call_events label callback topic data)
  = if fails callback topic data then [label] else [].
Proof.
  destruct callback as [cb|]; cbn; [|reflexivity].
  now destruct (cb_run cb topic data).
Qed.

Lemma invocations_dispatch w topic data :
  invocations (dispatch_events w topic data) = recipients w topic.
Proof.
  unfold dispatch_events, recipients, exact_events, exact_recipient.
  rewrite invocations_app. f_equal.
  - destruct (Dict.get topic (subscriptions w)) as [sub|]; [|reflexivity].
    destruct (Subscription.callback sub) as [cb|]; [|reflexivity].
    apply invocations_call_events.
  - unfold wildcard_events, wildcard_recipients.
    induction (wildcard_callbacks w) as [|entry entries IH]; [reflexivity|].
    cbn [flat_map]. rewrite invocations_app, IH. f_equal.
    destruct (_topic_matches topic (fst entry)); [|reflexivity].
    apply invocations_call_events.
Qed.

Lemma logged_dispatch w topic data :
  logged logging.ERROR (dispatch_events w topic data)
  = failure_lines w topic data.
Proof.
  unfold dispatch_events, failure_lines, exact_events.
  rewrite logged_app. f_equal.
  - destruct (Dict.get topic (subscriptions w)) as [sub|]; [|reflexivity].
    destruct (Subscription.callback sub) as [cb|]; [|reflexivity].
    apply logged_call_events.
  - unfold wildcard_events.
    induction (wildcard_callbacks w) as [|entry entries IH]; [reflexivity|].
    cbn [flat_map]. rewrite logged_app, IH. f_equal.
    destruct (_topic_matches topic (fst entry)); [|reflexivity].
    cbn [andb]. apply logged_call_events.
Qed.


(** C7 (amended). [_on_message] never raises, whatever the message and the
    registered callbacks.  For a message that gets to the callbacks (its
    payload decodes and [json.loads] returns or raises [JSONDecodeError]),
    every callback registered for the topic - the exact one, then each
    matching wildcard entry, in order - is invoked whether or not an earlier
    one raised; each callback that raises leaves one ERROR line in the log;
    the [errors] statistic is not changed by failing callbacks.  For any other
    message (the payload does not decode, or [json.loads] raises another
    exception) no callback is invoked and [errors] goes up by one. *)
Theorem callback_failures_isolated :
  forall w message,
    let w' := exec (_on_message message) w in
    let topic := MQTTMessage.topic message in
    fst (_on_message message w) = Return tt
    /\ (forall data,
          payload_data message = Some data ->
          invocations (trace w') = invocations (trace w) ++ recipients w topic
          /\ logged logging.ERROR (trace w')
             = logged logging.ERROR (trace w) ++ failure_lines w topic data
          /\ Stats.errors (stats w') = Stats.errors (stats w)
          /\ Stats.messages_received (stats w')
             = Stats.messages_received (stats w) + 1)
    /\ (payload_data message = None ->
          invocations (trace w') = invocations (trace w)
          /\ Stats.errors (stats w') = Stats.errors (stats w) + 1).
Proof.
  intros w message w' topic. subst w' topic. split; [|split].
  - destruct (payload_data message) as [data|] eqn:Hd.
    + now rewrite (on_message_dispatched w message data Hd).
    + apply (on_message_failed w message Hd).
  - intros data Hd. unfold exec.
    rewrite (on_message_dispatched w message data Hd). cbn.
    rewrite invocations_app, logged_app, invocations_dispatch,
      logged_dispatch.
    repeat split; reflexivity.
  - intros Hnone. apply (on_message_failed w message Hnone).
Qed.

Lemma callback_failures_isolated_witness :
  let w := Sample.two_subscribers in
  let w' := exec (_on_message Sample.reading) w in
  payload_data Sample.reading = Some (Parsed "21.5")
  /\ invocations (trace w') = invocations (trace w) ++ [2%nat; 1%nat]
  /\ Stats.errors (stats w') = Stats.errors (stats w).
Proof.
  split; [reflexivity|].
  pose proof (proj1 (proj2 (callback_failures_isolated Sample.two_subscribers
                              Sample.reading)) (Parsed "21.5") eq_refl) as H.
  split; [exact (proj1 H) | exact (proj1 (proj2 (proj2 H)))].
Defined.

(** The callback on the exact topic raises at its invocation; the failure
    is logged, the wildcard subscriber still runs, and [errors] stays 0. *)
Lemma callback_failure_not_counted :
  let w := Sample.two_subscribers in
  let w' := exec (_on_message Sample.reading) w in
  trace w'
  = [Invoke 2 "device/42/telemetry" (Parsed "21.5") Throws;
     Log logging.ERROR "Callback error";
     Invoke 1 "device/42/telemetry" (Parsed "21.5") Returns]
  /\ Stats.errors (stats w) = 0
  /\ Stats.errors (stats w') = 0.
Proof. vm_compute. repeat split; reflexivity. Qed.

(** ** Subscribing and unsubscribing *)

Lemma registry_client req : keeps registry (client req).
Proof. apply keeps_client. reflexivity. Qed.

Lemma subscribe_wildcard w p qos callback :
  has_wildcard p = true ->
  registry (exec (subscribe p qos callback) w)
  = (subscriptions w, wildcard_callbacks w ++ [(p, callback)]).
Proof.
  intros Hp. unfold exec, subscribe. rewrite Hp.
  match goal with
  | |- registry (snd (try_except (modify ?g ;; ?tail) ?h w)) = _ =>
      change (registry (snd (try_except tail h (g w))) = registry (g w));
      generalize (g w)
  end.
  change (keeps registry
            (try_except
               (is_connected <- gets connected ;;
                if is_connected
                then result <- client (Subscribe p qos) ;;
                     if result =? MQTT_ERR_SUCCESS then ret true
                     else log logging.ERROR "Subscribe failed" ;; ret false
                else ret true)
               (fun _ => log logging.ERROR "Subscribe error" ;;
                         bump Stats.incr_errors ;; ret false))).
  repeat first [apply registry_client | keeps_prim].
Qed.

Lemma subscribe_exact w p qos callback :
  has_wildcard p = false ->
  registry (exec (subscribe p qos callback) w)
  = (Dict.set p {| Subscription.topic := p; Subscription.qos := qos;
                   Subscription.callback := callback |} (subscriptions w),
     wildcard_callbacks w).
Proof.
  intros Hp. unfold exec, subscribe. rewrite Hp.
  match goal with
  | |- registry (snd (try_except (modify ?g ;; ?tail) ?h w)) = _ =>
      change (registry (snd (try_except tail h (g w))) = registry (g w));
      generalize (g w)
  end.
  change (keeps registry
            (try_except
               (is_connected <- gets connected ;;
                if is_connected
                then result <- client (Subscribe p qos) ;;
                     if result =? MQTT_ERR_SUCCESS then ret true
                     else log logging.ERROR "Subscribe failed" ;; ret false
                else ret true)
               (fun _ => log logging.ERROR "Subscribe error" ;;
                         bump Stats.incr_errors ;; ret false))).
  repeat first [apply registry_client | keeps_prim].
Qed.

Lemma unsubscribe_registry w p :
  registry (exec (unsubscribe p) w)
  = (Dict.del p (subscriptions w), without_pattern p (wildcard_callbacks w)).
Proof.
  unfold exec, unsubscribe.
  match goal with
  | |- registry (snd (try_except (modify ?g1 ;; modify ?g2 ;; ?tail) ?h w))
       = _ =>
      change (registry (snd (try_except tail h (g2 (g1 w))))
              = registry (g2 (g1 w)));
      generalize (g2 (g1 w))
  end.
  change (keeps registry
            (try_except
               (is_connected <- gets connected ;;
                if is_connected
                then result <- client (Unsubscribe p) ;;
                     if result =? MQTT_ERR_SUCCESS then ret true
                     else log logging.ERROR "Unsubscribe failed" ;; ret false
                else ret true)
               (fun _ => log logging.ERROR "Unsubscribe error" ;; ret false))).
  repeat first [apply registry_client | keeps_prim].
Qed.

Lemma unsubscribe_offline w p :
  connected w = false -> fst (unsubscribe p w) = Return true.
Proof.
  intros Hc. unfold unsubscribe. unfold_monad. cbn. now rewrite Hc.
Qed.

Lemma subscribe_repeatedly w p qos callback n :
  has_wildcard p = true ->
  registry (Nat.iter n (exec (subscribe p qos callback)) w)
  = (subscriptions w, wildcard_callbacks w ++ repeat (p, callback) n).
Proof.
  intros Hp. induction n as [|n IH].
  - cbn. now rewrite app_nil_r.
  - change (Nat.iter (S n) (exec (subscribe p qos callback)) w)
      with (exec (subscribe p qos callback)
              (Nat.iter n (exec (subscribe p qos callback)) w)).
    rewrite subscribe_wildcard by assumption.
    unfold registry in IH. inversion IH as [[Hs Hw]]. rewrite Hs, Hw.
    rewrite <- app_assoc, <- repeat_cons. reflexivity.
Qed.

Lemma wildcard_recipients_app topic l1 l2 :
  wildcard_recipients topic (l1 ++ l2)
  = wildcard_recipients topic l1 ++ wildcard_recipients topic l2.
Proof. unfold wildcard_recipients. apply flat_map_app. Qed.

Lemma wildcard_recipients_repeat topic p cb n :
  _topic_matches topic p = true ->
  wildcard_recipients topic (repeat (p, Some cb) n) = repeat (cb_id cb) n.
Proof.
  intros Hm. induction n as [|n IH]; [reflexivity|].
  cbn [repeat wildcard_recipients flat_map fst snd]. rewrite Hm.
  cbn [callable app]. f_equal. exact IH.
Qed.

Lemma without_pattern_spec p entries :
  ~ In p (map fst (without_pattern p entries))
  /\ (forall q c, q <> p -> In (q, c) entries ->
                  In (q, c) (without_pattern p entries)).
Proof.
  unfold without_pattern. split.
  - intros Hin. apply in_map_iff in Hin. destruct Hin as [[q c] [Hq Hin]].
    apply filter_In in Hin. destruct Hin as [_ Hne]. cbn in *. subst q.
    rewrite String.eqb_refl in Hne. discriminate.
  - intros q c Hne Hin. apply filter_In. split; [exact Hin|]. cbn.
    apply negb_true_iff, String.eqb_neq. exact Hne.
Qed.

(** C10 (amended). Wildcard subscriptions are not deduplicated.  Every
    [subscribe] to a pattern containing ['+'] or ['#'] appends a new entry to
    the wildcard list; after [n] such subscribes with the same pattern and
    callable, one matching inbound message that gets to the callbacks (its
    payload decodes and [json.loads] returns or raises [JSONDecodeError])
    invokes that callback [n] times (after the callbacks that were registered
    before), and any other message invokes no callback.  One [unsubscribe] of
    the pattern removes every wildcard entry with it and no other; and while
    not connected [unsubscribe] returns True for any pattern, registered or
    not. *)
Theorem wildcard_subscriptions_accumulate :
  (forall w p qos callback,
      has_wildcard p = true ->
      let w' := exec (subscribe p qos callback) w in
      wildcard_callbacks w' = wildcard_callbacks w ++ [(p, callback)]
      /\ subscriptions w' = subscriptions w)
  /\ (forall w p qos cb n message,
         has_wildcard p = true ->
         _topic_matches (MQTTMessage.topic message) p = true ->
         let wn := Nat.iter n (exec (subscribe p qos (Some cb))) w in
         (forall data,
             payload_data message = Some data ->
             invocations (trace (exec (_on_message message) wn))
             = invocations (trace wn)
               ++ recipients w (MQTTMessage.topic message)
               ++ repeat (cb_id cb) n)
         /\ (payload_data message = None ->
             invocations (trace (exec (_on_message message) wn))
             = invocations (trace wn)))
  /\ (forall w p,
         let w' := exec (unsubscribe p) w in
         wildcard_callbacks w' = without_pattern p (wildcard_callbacks w)
         /\ ~ In p (map fst (wildcard_callbacks w'))
         /\ (forall q c, q <> p -> In (q, c) (wildcard_callbacks w) ->
                         In (q, c) (wildcard_callbacks w')))
  /\ (forall w p, connected w = false -> fst (unsubscribe p w) = Return true).
Proof.
  split; [|split; [|split]].
  - intros w p qos callback Hp w'. subst w'.
    pose proof (subscribe_wildcard w p qos callback Hp) as H.
    unfold registry in H. inversion H as [[Hs Hw]]. rewrite Hs, Hw.
    split; reflexivity.
  - intros w p qos cb n message Hp Hm wn. split.
    + intros data Hd.
      pose proof (subscribe_repeatedly w p qos (Some cb) n Hp) as H.
      fold wn in H. unfold registry in H. inversion H as [[Hs Hw]].
      unfold exec. rewrite (on_message_dispatched wn message data Hd). cbn.
      rewrite invocations_app, invocations_dispatch. f_equal.
      unfold recipients, exact_recipient. rewrite Hs, Hw.
      rewrite wildcard_recipients_app, wildcard_recipients_repeat
        by assumption.
      now rewrite app_assoc.
    + intros Hnone. apply (on_message_failed wn message Hnone).
  - intros w p w'. subst w'.
    pose proof (unsubscribe_registry w p) as H.
    unfold registry in H. inversion H as [[Hs Hw]]. rewrite Hw.
    split; [reflexivity | apply without_pattern_spec].
  - intros w p Hc. now apply unsubscribe_offline.
Qed.

Lemma wildcard_subscriptions_accumulate_witness :
  let p := "device/+/telemetry" in
  let wn := Nat.iter 3 (exec (subscribe p 1 (Some Sample.steady)))
                     Sample.fresh_client in
  has_wildcard p = true
  /\ _topic_matches (MQTTMessage.topic Sample.reading) p = true
  /\ payload_data Sample.reading = Some (Parsed "21.5")
  /\ invocations (trace (exec (_on_message Sample.reading) wn))
     = invocations (trace wn)
       ++ recipients Sample.fresh_client (MQTTMessage.topic Sample.reading)
       ++ repeat (cb_id Sample.steady) 3.
Proof.
  split; [reflexivity | split; [reflexivity | split; [reflexivity|]]].
  exact (proj1 (proj1 (proj2 wildcard_subscriptions_accumulate)
                  Sample.fresh_client "device/+/telemetry" 1 Sample.steady
                  3%nat Sample.reading eq_refl eq_refl)
           (Parsed "21.5") eq_refl).
Defined.

(** Three subscribes to one pattern leave three entries, yet a matching
    message whose payload is not UTF-8, or on which [json.loads] raises
    [ValueError], invokes the callback not once; and entries subscribed
    without a callable are never invoked either. *)
Lemma matching_message_may_invoke_no_callback :
  let p := "device/+/telemetry" in
  let wn := Nat.iter 3 (exec (subscribe p 1 (Some Sample.steady)))
                     Sample.fresh_client in
  let bare := Nat.iter 3 (exec (subscribe p 1 None)) Sample.fresh_client in
  has_wildcard p = true
  /\ wildcard_callbacks wn = repeat (p, Some Sample.steady) 3
  /\ _topic_matches (MQTTMessage.topic Sample.garbled) p = true
  /\ invocations (trace (exec (_on_message Sample.garbled) wn)) = []
  /\ _topic_matches (MQTTMessage.topic Sample.huge_number) p = true
  /\ invocations (trace (exec (_on_message Sample.huge_number) wn)) = []
  /\ wildcard_callbacks bare = repeat (p, None) 3
  /\ invocations (trace (exec (_on_message Sample.reading) bare)) = [].
Proof. vm_compute. repeat split; reflexivity. Qed.

(** ** Disconnecting *)

Lemma requests_app tr1 tr2 : requests (tr1 ++ tr2) = requests tr1 ++ requests tr2.
Proof.
  induction tr1 as [|ev tr1 IH]; [reflexivity|]. simpl.
  destruct ev; simpl; congruence.
Qed.




(** ** Replaying subscriptions on connect *)










(** ** Reconnection with backoff *)




Lemma config_on_connect rc : keeps config (_on_connect rc).
Proof.
  unfold _on_connect, _resubscribe_all, _start_queue_processor.
  repeat first [apply keeps_client; reflexivity | keeps_prim].
Qed.


Lemma keeps_network_thread {X} (f : World -> X) :
  (forall rc, keeps f (_on_connect rc)) -> keeps f network_thread.
Proof.
  intros H w. unfold network_thread.
  destruct (connack w (calls w)); simpl; [apply H | reflexivity].
Qed.

Lemma keeps_wait_for_connection {X} (f : World -> X) timeout :
  (forall rc, keeps f (_on_connect rc)) ->
  (forall w seconds, f (set_trace (trace w ++ [Nap seconds]) w) = f w) ->
  (forall w c, f (set_clock c w) = f w) ->
  keeps f (wait_for_connection timeout).
Proof.
  intros Hconnect Hnap Hclock. unfold wait_for_connection.
  apply keeps_bind; [apply keeps_gets | intros start_time].
  apply keeps_bind; [now apply keeps_network_thread | intros _].
  now apply keeps_poll_connected.
Qed.

(** [connect] leaves alone what its parts do: [leaf] settles the steps
    around the wait, [wait] the wait itself. *)
Ltac keeps_connect leaf wait :=
  unfold connect;
  apply keeps_try; [|intros ?; leaf];
  apply keeps_bind; [apply keeps_gets | intros [|]]; [leaf|];
  apply keeps_bind; [leaf | intros _];
  apply keeps_bind; [apply keeps_gets | intros ?];
  apply keeps_bind; [leaf | intros _];
  apply keeps_bind; [leaf | intros _];
  apply keeps_bind; [wait | intros _];
  leaf.


(** *** Methods only append to the trace *)

















(** One attempt yields the next delay.  When [time.sleep] refuses the
    length nothing is slept and the delay stays; otherwise the attempt sleeps
    [delay] and calls [reconnect]: when that returns the delay doubles up to
    the cap, when it raises the delay stays. *)
Lemma reconnect_attempt delay cap w :
  let r := try_except
             (time_sleep delay ;; client Reconnect ;;
              ret (Z.min (delay * 2) cap))
             (fun e => log logging.ERROR "Reconnect failed" ;; ret delay) w in
  exists delay',
    fst r = Return delay'
    /\ config (snd r) = config w
    /\ ((trace (snd r) = trace w ++ [Log logging.ERROR "Reconnect failed"]
         /\ delay' = delay)
        \/ (0 <= delay
            /\ (exists rc,
                   trace (snd r)
                   = trace w ++ [Sleep delay; Transport Reconnect (Rc rc)])
            /\ delay' = Z.min (delay * 2) cap)
        \/ (0 <= delay
            /\ trace (snd r)
               = trace w ++ [Sleep delay; Transport Reconnect Fault;
                             Log logging.ERROR "Reconnect failed"]
            /\ delay' = delay)).
Proof.
  unfold_monad. cbn.
  destruct ((delay <? -9223372036) || (9223372036 <? delay)); cbn.
  { exists delay. split; [reflexivity | split; [reflexivity | left; auto]]. }
  destruct (delay <? 0) eqn:Hneg; cbn.
  { exists delay. split; [reflexivity | split; [reflexivity | left; auto]]. }
  apply Z.ltb_ge in Hneg.
  destruct (broker w (calls w)) as [rc|]; cbn.
  - exists (Z.min (delay * 2) cap).
    split; [reflexivity | split; [reflexivity | right; left]].
    split; [exact Hneg | split; [|reflexivity]].
    exists rc. now rewrite <- app_assoc.
  - exists delay.
    split; [reflexivity | split; [reflexivity | right; right]].
    split; [exact Hneg | split; [|reflexivity]].
    now rewrite <- !app_assoc.
Qed.




Lemma config_network_thread : keeps config network_thread.
Proof. apply keeps_network_thread, config_on_connect. Qed.

Lemma reconnect_loop_exit n : forall delay w,
  exists r w',
    reconnect_loop n delay w = (r, w')
    /\ config w' = config w
    /\ match r with
       | Return _ =>
           MQTTConfig.auto_reconnect (config w) = false
           \/ connected w' = true
       | Raise _ => False
       | Pending => True
       end.
Proof.
  induction n as [|n IH]; intros delay w; cbn [reconnect_loop];
    unfold bind at 1; unfold gets at 1;
    unfold bind at 1; unfold gets at 1;
    destruct (MQTTConfig.auto_reconnect (config w)) eqn:Hauto;
    destruct (connected w) eqn:Hc; cbn [andb negb];
    try (exists (Return tt), w; cbn; auto; fail).
  - exists Pending, w. cbn. auto.
  - destruct (reconnect_attempt delay
                (MQTTConfig.max_reconnect_delay (config w)) w)
      as [delay' [Hr [Hcfg _]]].
    unfold bind at 1.
    destruct (try_except _ _ w) as [r w1]. cbn [fst snd] in *. subst r.
    unfold bind at 1.
    pose proof (network_thread_returns w1) as Hnr.
    pose proof (config_network_thread w1) as Hnc.
    destruct (network_thread w1) as [r w2]. cbn [fst snd] in *. subst r.
    destruct (IH delay' w2) as [r [w' [Heq [Hcfg2 Hres]]]].
    exists r, w'. split; [exact Heq|].
    split; [now rewrite Hcfg2, Hnc, Hcfg|].
    destruct r; try exact Hres.
    destruct Hres as [Hoff | Hon]; [|now right].
    rewrite Hnc, Hcfg, Hauto in Hoff. discriminate.
Qed.

Lemma handle_reconnect_unfold n w :
  _handle_reconnect n w
  = reconnect_loop n (MQTTConfig.reconnect_delay (config w))
      (set_stats (Stats.incr_reconnect_count (stats w)) w).
Proof. reflexivity. Qed.




(* ========================================================================= *)
(** * Further properties of the client *)

(** ** More on the topic matcher *)

Lemma matches_iff_accepts topic pattern :
  _topic_matches topic pattern = true
  <-> Accepts (levels topic) (levels pattern).
Proof.
  unfold _topic_matches, levels.
  destruct (Py.mem "#" (removelast (Py.split slash pattern))) eqn:Hmem.
  - split; [discriminate|]. intros H.
    apply accepts_hash_final in H. apply mem_In in Hmem. contradiction.
  - apply (match_loop_accepts _ [] []); [reflexivity|].
    intros Hin. apply mem_In in Hin. congruence.
Qed.

Lemma join_cons_char sep c part parts :
  join sep (String c part :: parts) = String c (join sep (part :: parts)).
Proof. destruct parts; reflexivity. Qed.

(** Joining the levels gives the string back. *)
Lemma join_split sep s : join sep (Py.split sep s) = s.
Proof.
  induction s as [|c rest IH]; [reflexivity|]. cbn [Py.split].
  destruct (Ascii.eqb_spec c sep) as [-> | Hne].
  - pose proof (split_nonempty sep rest) as Hn.
    destruct (Py.split sep rest) as [|part parts]; [contradiction|].
    cbn [join]. cbn. now rewrite <- IH.
  - pose proof (split_nonempty sep rest) as Hn.
    destruct (Py.split sep rest) as [|part parts]; [contradiction|].
    rewrite join_cons_char, IH. reflexivity.
Qed.

Lemma split_injective sep s1 s2 :
  Py.split sep s1 = Py.split sep s2 -> s1 = s2.
Proof.
  intros H. rewrite <- (join_split sep s1), <- (join_split sep s2).
  now rewrite H.
Qed.

(** A character absent from a string is absent from each of its levels. *)
Lemma contains_split c sep s :
  Py.contains c s = false ->
  Forall (fun level => Py.contains c level = false) (Py.split sep s).
Proof.
  induction s as [|c' rest IH]; intros H; cbn [Py.split].
  - repeat constructor.
  - cbn [Py.contains] in H. apply orb_false_iff in H. destruct H as [Hc Hrest].
    specialize (IH Hrest).
    destruct (Ascii.eqb c' sep).
    + constructor; [reflexivity | exact IH].
    + destruct (Py.split sep rest) as [|part parts];
        [repeat constructor; cbn; now rewrite Hc|].
      inversion IH as [|? ? Hpart Hparts]; subst.
      constructor; [cbn; now rewrite Hc, Hpart | exact Hparts].
Qed.

Lemma plain_levels pattern :
  has_wildcard pattern = false ->
  Forall (fun level => level <> "+" /\ level <> "#") (levels pattern).
Proof.
  unfold has_wildcard. intros H. apply orb_false_iff in H.
  destruct H as [Hplus Hhash].
  pose proof (contains_split "+"%char slash pattern Hplus) as H1.
  pose proof (contains_split "#"%char slash pattern Hhash) as H2.
  unfold levels. induction (Py.split slash pattern) as [|level rest IH];
    [constructor|].
  inversion H1; inversion H2; subst.
  constructor; [|now apply IH].
  split; intros ->; discriminate.
Qed.

Lemma accepts_plain ts ps :
  Forall (fun level => level <> "+" /\ level <> "#") ps ->
  (Accepts ts ps <-> ts = ps).
Proof.
  intros Hplain. split.
  - intros H. induction H as [| ts | t ts ps H IH | t ts ps Hne H IH].
    + reflexivity.
    + inversion Hplain as [|? ? [_ Hh] _]; subst. congruence.
    + inversion Hplain as [|? ? [Hp _] _]; subst. congruence.
    + inversion Hplain; subst. f_equal. now apply IH.
  - intros ->. induction Hplain as [|p ps [Hp Hh] Hrest IH];
      constructor; assumption.
Qed.

(** X1. A pattern without wildcard characters matches exactly one topic:
    itself. *)
Theorem plain_pattern_matches_itself_only :
  forall topic pattern,
    has_wildcard pattern = false ->
    (_topic_matches topic pattern = true <-> topic = pattern).
Proof.
  intros topic pattern Hplain.
  rewrite matches_iff_accepts, (accepts_plain _ _ (plain_levels _ Hplain)).
  unfold levels. split.
  - apply split_injective.
  - now intros ->.
Qed.

Lemma plain_pattern_matches_itself_only_witness :
  has_wildcard "device/42/status" = false
  /\ (_topic_matches "device/42/status" "device/42/status" = true
      <-> "device/42/status" = "device/42/status").
Proof.
  split; [reflexivity|].
  exact (plain_pattern_matches_itself_only
           "device/42/status" "device/42/status" eq_refl).
Defined.

Lemma accepts_level_count ts ps :
  Accepts ts ps ->
  (List.length ps <= S (List.length ts))%nat
  /\ (last ps "" <> "#" -> List.length ts = List.length ps).
Proof.
  induction 1 as [| ts | t ts ps H [IH1 IH2] | t ts ps Hne H [IH1 IH2]].
  - split; [cbn; lia | reflexivity].
  - split; [cbn; lia | cbn; congruence].
  - split; [cbn; lia|]. intros Hlast. cbn [List.length]. f_equal.
    apply IH2. destruct ps as [|p ps]; [inversion H; subst; cbn; discriminate|].
    exact Hlast.
  - split; [cbn; lia|]. intros Hlast. cbn [List.length]. f_equal.
    apply IH2. destruct ps as [|p ps]; [inversion H; subst; cbn; discriminate|].
    exact Hlast.
Qed.

(** X2. A match fixes the depth of the topic: unless the pattern ends in
    ["#"], a matching topic has exactly as many levels as the pattern; with
    a final ["#"] it has at least as many as the pattern has before the
    ["#"]. *)
Theorem match_fixes_depth :
  forall topic pattern,
    _topic_matches topic pattern = true ->
    (List.length (levels pattern) <= S (List.length (levels topic)))%nat
    /\ (last (levels pattern) "" <> "#" ->
        List.length (levels topic) = List.length (levels pattern)).
Proof.
  intros topic pattern H. apply accepts_level_count.
  now apply matches_iff_accepts.
Qed.

Lemma match_fixes_depth_witness :
  _topic_matches "device/42/telemetry" "device/+/telemetry" = true
  /\ List.length (levels "device/42/telemetry")
     = List.length (levels "device/+/telemetry").
Proof.
  split; [reflexivity|].
  apply (proj2 (match_fixes_depth "device/42/telemetry" "device/+/telemetry"
                  eq_refl)).
  cbn. discriminate.
Defined.

(** ** Calls that always return *)

Lemma returns_settles {A} (m : M A) : returns m -> settles m.
Proof. intros H w. destruct (H w) as [a Ha]. rewrite Ha. discriminate. Qed.

Lemma returns_ret {A} (a : A) : returns (ret a).
Proof. intros w. now exists a. Qed.

Lemma returns_gets {A} (f : World -> A) : returns (gets f).
Proof. intros w. now exists (f w). Qed.

Lemma returns_modify f : returns (modify f).
Proof. intros w. now exists tt. Qed.

Lemma settles_raise {A} e : settles (@raise A e).
Proof. intros w. discriminate. Qed.

Lemma returns_bind {A B} (m : M A) (k : A -> M B) :
  returns m -> (forall a, returns (k a)) -> returns (bind m k).
Proof.
  intros Hm Hk w. unfold bind. destruct (Hm w) as [a Ha].
  destruct (m w) as [r w1]. simpl in Ha. subst r. apply Hk.
Qed.

Lemma settles_bind {A B} (m : M A) (k : A -> M B) :
  settles m -> (forall a, settles (k a)) -> settles (bind m k).
Proof.
  intros Hm Hk w. unfold bind. specialize (Hm w).
  destruct (m w) as [[a | e |] w1]; simpl in *;
    [apply Hk | discriminate | congruence].
Qed.

Lemma returns_try {A} (m : M A) handler :
  settles m -> (forall e, returns (handler e)) ->
  returns (try_except m handler).
Proof.
  intros Hm Hh w. unfold try_except. specialize (Hm w).
  destruct (m w) as [[a | e |] w1]; simpl in *;
    [now exists a | apply Hh | congruence].
Qed.

Lemma settles_try {A} (m : M A) handler :
  settles m -> (forall e, settles (handler e)) ->
  settles (try_except m handler).
Proof.
  intros Hm Hh w. unfold try_except. specialize (Hm w).
  destruct (m w) as [[a | e |] w1]; simpl in *;
    [discriminate | apply Hh | congruence].
Qed.

Lemma returns_for_each {A} (xs : list A) body :
  (forall x, returns (body x)) -> returns (for_each xs body).
Proof.
  intros Hb. induction xs as [|x xs IH]; simpl;
    [apply returns_ret | apply returns_bind; auto].
Qed.

Lemma settles_for_each {A} (xs : list A) body :
  (forall x, settles (body x)) -> settles (for_each xs body).
Proof.
  intros Hb. induction xs as [|x xs IH]; simpl;
    [apply returns_settles, returns_ret | apply settles_bind; auto].
Qed.

Lemma settles_client req : settles (client req).
Proof. intros w. unfold client. destruct (broker w (calls w)); discriminate. Qed.

Ltac returns_step :=
  first
    [ apply returns_ret | apply returns_gets | apply returns_modify
    | apply returns_bind; [|intros ?]
    | apply returns_try; [|intros ?]
    | apply returns_for_each; intros ?
    | match goal with
      | |- returns (if ?b then _ else _) => destruct b
      | |- returns (match ?x with _ => _ end) => destruct x
      end ].

Ltac settles_step :=
  first
    [ apply settles_raise | apply settles_client
    | apply settles_bind; [|intros ?]
    | apply settles_try; [|intros ?]
    | apply settles_for_each; intros ?
    | match goal with
      | |- settles (if ?b then _ else _) => destruct b
      | |- settles (match ?x with _ => _ end) => destruct x
      end
    | apply returns_settles; solve [repeat returns_step] ].

Ltac returns_auto :=
  unfold time_time, time_sleep, time_nap, json_loads, put_nowait, get, log,
    bump, emit;
  repeat first [returns_step | settles_step].

Lemma returns_queue_message topic payload qos retain :
  returns (_queue_message topic payload qos retain).
Proof. unfold _queue_message. returns_auto. Qed.

Lemma returns_publish topic payload qos retain :
  returns (publish topic payload qos retain).
Proof.
  unfold publish, to_payload_str.
  repeat first
    [ apply returns_settles, returns_queue_message | returns_auto ].
Qed.

Lemma returns_subscribe topic qos callback :
  returns (subscribe topic qos callback).
Proof. unfold subscribe. returns_auto. Qed.

Lemma returns_unsubscribe topic : returns (unsubscribe topic).
Proof. unfold unsubscribe. returns_auto. Qed.

Lemma returns_stop_queue_processor : returns _stop_queue_processor.
Proof. unfold _stop_queue_processor. returns_auto. Qed.

Lemma returns_disconnect : returns disconnect.
Proof.
  unfold disconnect.
  repeat first
    [ apply returns_settles, returns_stop_queue_processor | returns_auto ].
Qed.

Lemma returns_wait_for_connection timeout :
  returns (wait_for_connection timeout).
Proof.
  intros w. exists tt. apply wait_for_connection_returns.
Qed.

Lemma returns_connect : returns connect.
Proof.
  unfold connect, log, bump, emit.
  repeat first
    [ apply returns_wait_for_connection
    | apply returns_settles, returns_wait_for_connection
    | returns_step | settles_step ].
Qed.

Lemma returns_reconnect : returns reconnect.
Proof.
  unfold reconnect.
  apply returns_bind; [apply returns_disconnect | intros _].
  apply returns_bind; [returns_auto | intros _].
  apply returns_connect.
Qed.

(** X3. The public methods never let an exception escape and never block:
    whatever the state of the client, the payload and the replies of the
    transport, [publish], [subscribe], [unsubscribe], [connect] and
    [reconnect] return a boolean, and entering or leaving the client as a
    context manager returns as well. *)
Theorem public_methods_return :
  (forall topic payload qos retain w,
      exists b, fst (publish topic payload qos retain w) = Return b)
  /\ (forall topic qos callback w,
         exists b, fst (subscribe topic qos callback w) = Return b)
  /\ (forall topic w, exists b, fst (unsubscribe topic w) = Return b)
  /\ (forall w, exists b, fst (connect w) = Return b)
  /\ (forall w, exists b, fst (reconnect w) = Return b)
  /\ (forall w, fst (__enter__ w) = Return tt)
  /\ (forall w, fst (__exit__ w) = Return tt).
Proof.
  repeat split.
  - intros. apply returns_publish.
  - intros. apply returns_subscribe.
  - intros. apply returns_unsubscribe.
  - apply returns_connect.
  - apply returns_reconnect.
  - intros w. unfold __enter__, bind. destruct (returns_connect w) as [b Hb].
    destruct (connect w) as [r w1]. simpl in Hb. now subst r.
  - intros w. unfold __exit__. destruct (returns_disconnect w) as [[] Hb].
    exact Hb.
Qed.

(** ** Publishing while connected *)

(** X4. [publish] on a connected client hands the message to the transport
    at once.  If the transport accepts it, [publish] returns True and
    [messages_sent] goes up by one, the queue untouched.  If the transport
    rejects it with an error code, [publish] returns False and falls back
    to the queue (when there is room).  If the transport call raises, the
    message is neither sent nor queued: [publish] returns False and counts
    one error. *)
Theorem publish_while_connected :
  forall w topic payload text qos retain,
    connected w = true ->
    rendering payload = Some text ->
    let r := publish topic payload qos retain w in
    (accepts_call w (calls w) ->
       fst r = Return true
       /\ sent (trace (snd r))
          = sent (trace w) ++ [Publish topic text qos retain]
       /\ Stats.messages_sent (stats (snd r))
          = Stats.messages_sent (stats w) + 1
       /\ message_queue (snd r) = message_queue w)
    /\ (rejects_call w (calls w) ->
          fst r = Return false
          /\ sent (trace (snd r)) = sent (trace w)
          /\ Stats.messages_sent (stats (snd r)) = Stats.messages_sent (stats w)
          /\ (queue_full w = false ->
              message_queue (snd r)
              = message_queue w ++ [queued topic text qos retain (clock w)]
              /\ Stats.messages_queued (stats (snd r))
                 = Stats.messages_queued (stats w) + 1)
          /\ (queue_full w = true -> message_queue (snd r) = message_queue w))
    /\ (broker w (calls w) = Fault ->
          fst r = Return false
          /\ sent (trace (snd r)) = sent (trace w)
          /\ message_queue (snd r) = message_queue w
          /\ Stats.errors (stats (snd r)) = Stats.errors (stats w) + 1).
Proof.
  intros w topic payload text qos retain Hc Hr r. subst r.
  assert (Hp : to_payload_str payload = ret text)
    by (destruct payload as [[t|]|t]; simpl in Hr; inversion Hr; reflexivity).
  unfold publish, _queue_message. rewrite Hp.
  unfold accepts_call, rejects_call.
  unfold_monad. unfold queue_full. cbn. rewrite Hc. cbn.
  destruct (broker w (calls w)) as [rc|] eqn:Hb; cbn.
  - destruct (rc =? MQTT_ERR_SUCCESS) eqn:Hrc; cbn.
    + apply Z.eqb_eq in Hrc. subst rc.
      split; [|split]; [| intros [rc [Hne E]]; congruence | discriminate].
      intros _. rewrite sent_app. cbn. repeat split; reflexivity.
    + apply Z.eqb_neq in Hrc.
      split; [|split]; [intros E; congruence | | discriminate].
      intros _.
      destruct ((0 <? MQTTConfig.queue_size (config w))
                && (MQTTConfig.queue_size (config w)
                    <=? Z.of_nat (List.length (message_queue w)))) eqn:Hf;
        cbn; rewrite ?sent_app; cbn;
        apply Z.eqb_neq in Hrc; rewrite ?Hrc; cbn; rewrite ?sent_app; cbn;
        rewrite ?app_nil_r;
        repeat split; try reflexivity; intros; try discriminate;
        repeat split; reflexivity.
  - split; [|split]; [discriminate | intros [rc [Hne E]]; discriminate |].
    intros _. rewrite !sent_app. cbn. rewrite !app_nil_r.
    repeat split; reflexivity.
Qed.

Lemma publish_while_connected_witness :
  let w := Sample.online Sample.accepting [] 0 in
  connected w = true
  /\ accepts_call w (calls w)
  /\ fst (publish "plant/line" (Scalar "on") 1 false w) = Return true.
Proof.
  split; [reflexivity | split; [reflexivity|]].
  exact (proj1 (proj1 (publish_while_connected
                         (Sample.online Sample.accepting [] 0)
                         "plant/line" (Scalar "on") "on" 1 false
                         eq_refl eq_refl) eq_refl)).
Defined.

(** ** Connecting *)











(** ** The subscription registry *)

Section DictFacts.
Context {V : Type}.
Implicit Types (d : Dict.t V) (k : string) (v : V).

Lemma dict_get_set_same k v d : Dict.get k (Dict.set k v d) = Some v.
Proof.
  induction d as [|[k' v'] d IH]; cbn.
  - now rewrite String.eqb_refl.
  - destruct (String.eqb_spec k' k) as [-> | Hne]; cbn.
    + now rewrite String.eqb_refl.
    + apply String.eqb_neq in Hne. now rewrite Hne.
Qed.

Lemma dict_get_set_other k k' v d :
  k' <> k -> Dict.get k' (Dict.set k v d) = Dict.get k' d.
Proof.
  intros Hne. induction d as [|[k0 v0] d IH]; cbn.
  - destruct (String.eqb_spec k k'); [congruence | reflexivity].
  - destruct (String.eqb_spec k0 k) as [-> | Hk]; cbn.
    + destruct (String.eqb_spec k k'); [congruence | reflexivity].
    + destruct (String.eqb_spec k0 k'); [reflexivity | exact IH].
Qed.

Lemma dict_get_none_keys k d : Dict.get k d = None <-> ~ In k (map fst d).
Proof.
  induction d as [|[k' v'] d IH]; cbn; [tauto|].
  destruct (String.eqb_spec k' k) as [-> | Hne].
  - split; [discriminate | intros H; exfalso; apply H; now left].
  - rewrite IH. tauto.
Qed.

Lemma dict_keys_set k v d :
  map fst (Dict.set k v d)
  = match Dict.get k d with
    | Some _ => map fst d
    | None => map fst d ++ [k]
    end.
Proof.
  induction d as [|[k' v'] d IH]; cbn; [reflexivity|].
  destruct (String.eqb_spec k' k) as [-> | Hne]; cbn; [reflexivity|].
  rewrite IH. now destruct (Dict.get k d).
Qed.

Lemma dict_del_subset k d x : In x (Dict.del k d) -> In x d.
Proof.
  induction d as [|[k' v'] d IH]; cbn; [tauto|].
  destruct (String.eqb_spec k' k); cbn; tauto.
Qed.

Lemma dict_keys_del_subset k d x :
  In x (map fst (Dict.del k d)) -> In x (map fst d).
Proof.
  intros H. apply in_map_iff in H. destruct H as [item [<- Hin]].
  apply in_map. now apply dict_del_subset in Hin.
Qed.

Lemma dict_nodup_set k v d :
  NoDup (map fst d) -> NoDup (map fst (Dict.set k v d)).
Proof.
  intros H. rewrite dict_keys_set.
  destruct (Dict.get k d) eqn:Hg; [exact H|].
  apply dict_get_none_keys in Hg.
  apply NoDup_app; [exact H | repeat constructor; cbn; tauto |].
  intros x Hx [<- | []]. contradiction.
Qed.

Lemma dict_nodup_del k d :
  NoDup (map fst d) -> NoDup (map fst (Dict.del k d)).
Proof.
  induction d as [|[k' v'] d IH]; cbn; [trivial|]. intros H.
  inversion H as [|? ? Hnotin Hrest]; subst.
  destruct (String.eqb_spec k' k); cbn; [exact Hrest|].
  constructor; [|now apply IH].
  intros Hin. apply Hnotin. now apply dict_keys_del_subset in Hin.
Qed.

Lemma dict_get_del_same k d :
  NoDup (map fst d) -> Dict.get k (Dict.del k d) = None.
Proof.
  induction d as [|[k' v'] d IH]; cbn; [reflexivity|]. intros H.
  inversion H as [|? ? Hnotin Hrest]; subst.
  destruct (String.eqb_spec k' k) as [-> | Hne]; cbn.
  - now apply dict_get_none_keys.
  - apply String.eqb_neq in Hne. rewrite Hne. now apply IH.
Qed.

Lemma dict_get_del_other k k' d :
  k' <> k -> Dict.get k' (Dict.del k d) = Dict.get k' d.
Proof.
  intros Hne. induction d as [|[k0 v0] d IH]; cbn; [reflexivity|].
  destruct (String.eqb_spec k0 k) as [-> | Hk]; cbn.
  - destruct (String.eqb_spec k k'); [congruence | reflexivity].
  - destruct (String.eqb_spec k0 k'); [reflexivity | exact IH].
Qed.

Lemma dict_del_absent k d : Dict.get k d = None -> Dict.del k d = d.
Proof.
  induction d as [|[k' v'] d IH]; cbn; [reflexivity|].
  destruct (String.eqb_spec k' k); [discriminate|].
  intros H. now rewrite IH.
Qed.

Lemma dict_del_set_fresh k v d :
  Dict.get k d = None -> Dict.del k (Dict.set k v d) = d.
Proof.
  induction d as [|[k' v'] d IH]; cbn.
  - now rewrite String.eqb_refl.
  - destruct (String.eqb_spec k' k) as [-> | Hne]; [discriminate|].
    intros H. cbn. apply String.eqb_neq in Hne. rewrite Hne.
    now rewrite IH.
Qed.

Lemma dict_forall_set (P : string * V -> Prop) k v d :
  P (k, v) -> Forall P d -> Forall P (Dict.set k v d).
Proof.
  intros Hk. induction 1 as [|[k' v'] d Hx Hd IH]; cbn.
  - repeat constructor. exact Hk.
  - destruct (String.eqb k' k); constructor; assumption.
Qed.

Lemma dict_forall_del (P : string * V -> Prop) k d :
  Forall P d -> Forall P (Dict.del k d).
Proof.
  intros H. apply Forall_forall. intros x Hx.
  apply dict_del_subset in Hx. revert x Hx. now apply Forall_forall.
Qed.

End DictFacts.

Lemma without_pattern_absent p entries :
  ~ In p (map fst entries) -> without_pattern p entries = entries.
Proof.
  unfold without_pattern. induction entries as [|[q c] entries IH]; cbn;
    [reflexivity|].
  intros H. destruct (String.eqb_spec q p) as [-> | Hne]; cbn.
  - exfalso. apply H. now left.
  - f_equal. apply IH. tauto.
Qed.

Lemma without_pattern_app p l1 l2 :
  without_pattern p (l1 ++ l2) = without_pattern p l1 ++ without_pattern p l2.
Proof. unfold without_pattern. apply filter_app. Qed.

(** X8. Subscribing to an exact topic twice keeps a single entry: the
    second subscription replaces QoS and callback of the first, the set of
    subscribed topics is unchanged, and a message on the topic reaches the
    second callback only. *)
Theorem exact_resubscribe_replaces :
  forall w topic qos1 cb1 qos2 cb2,
    has_wildcard topic = false ->
    let w1 := exec (subscribe topic qos1 cb1) w in
    let w2 := exec (subscribe topic qos2 cb2) w1 in
    Dict.get topic (subscriptions w2)
    = Some {| Subscription.topic := topic; Subscription.qos := qos2;
              Subscription.callback := cb2 |}
    /\ map fst (subscriptions w2) = map fst (subscriptions w1)
    /\ wildcard_callbacks w2 = wildcard_callbacks w
    /\ exact_recipient w2 topic = callable cb2.
Proof.
  intros w topic qos1 cb1 qos2 cb2 Hp w1 w2.
  pose proof (subscribe_exact w topic qos1 cb1 Hp) as H1. fold w1 in H1.
  pose proof (subscribe_exact w1 topic qos2 cb2 Hp) as H2. fold w2 in H2.
  unfold registry in H1, H2.
  inversion H1 as [[Hs1 Hw1]]. inversion H2 as [[Hs2 Hw2]].
  unfold exact_recipient. rewrite Hs2, Hw2, Hw1, dict_get_set_same.
  repeat split; try reflexivity.
  rewrite dict_keys_set, Hs1, dict_get_set_same. reflexivity.
Qed.

Lemma exact_resubscribe_replaces_witness :
  let w1 := exec (subscribe "alerts" 0 (Some Sample.broken))
                 Sample.fresh_client in
  let w2 := exec (subscribe "alerts" 2 (Some Sample.steady)) w1 in
  has_wildcard "alerts" = false
  /\ exact_recipient w2 "alerts" = [cb_id Sample.steady].
Proof.
  split; [reflexivity|].
  exact (proj2 (proj2 (proj2
    (exact_resubscribe_replaces Sample.fresh_client "alerts"
       0 (Some Sample.broken) 2 (Some Sample.steady) eq_refl)))).
Defined.

(** X9. Subscribing to a topic or pattern that was not registered and then
    unsubscribing from it leaves the registry exactly as it was. *)
Theorem subscribe_unsubscribe_round_trip :
  forall w topic qos callback,
    Dict.get topic (subscriptions w) = None ->
    ~ In topic (map fst (wildcard_callbacks w)) ->
    registry (exec (unsubscribe topic) (exec (subscribe topic qos callback) w))
    = registry w.
Proof.
  intros w topic qos callback Hs Hw.
  rewrite unsubscribe_registry.
  destruct (has_wildcard topic) eqn:Hp.
  - pose proof (subscribe_wildcard w topic qos callback Hp) as H.
    unfold registry in *. inversion H as [[H1 H2]]. rewrite H1, H2.
    rewrite dict_del_absent by exact Hs.
    rewrite without_pattern_app, without_pattern_absent by exact Hw.
    unfold without_pattern. cbn. rewrite String.eqb_refl. cbn.
    now rewrite app_nil_r.
  - pose proof (subscribe_exact w topic qos callback Hp) as H.
    unfold registry in *. inversion H as [[H1 H2]]. rewrite H1, H2.
    rewrite dict_del_set_fresh by exact Hs.
    now rewrite without_pattern_absent by exact Hw.
Qed.

Lemma subscribe_unsubscribe_round_trip_witness :
  let w := Sample.two_subscribers in
  Dict.get "alerts" (subscriptions w) = None
  /\ registry (exec (unsubscribe "alerts")
                    (exec (subscribe "alerts" 1 (Some Sample.steady)) w))
     = registry w.
Proof.
  split; [reflexivity|].
  apply (subscribe_unsubscribe_round_trip Sample.two_subscribers "alerts" 1
           (Some Sample.steady)).
  - reflexivity.
  - cbn. intros [H | []]. discriminate.
Defined.

Ltac registry_auto :=
  repeat first
    [ apply registry_client
    | unfold time_time, time_sleep, time_nap, json_loads, put_nowait, put, get,
        log, bump, emit;
      keeps_step ].

Lemma registry_queue_message topic payload qos retain :
  keeps registry (_queue_message topic payload qos retain).
Proof. unfold _queue_message. registry_auto. Qed.

Lemma registry_publish topic payload qos retain :
  keeps registry (publish topic payload qos retain).
Proof.
  unfold publish, to_payload_str.
  repeat first [apply registry_queue_message | registry_auto].
Qed.

Lemma registry_queue_iteration : keeps registry queue_iteration.
Proof. unfold queue_iteration. registry_auto. Qed.

Lemma registry_on_message message : keeps registry (_on_message message).
Proof. unfold _on_message, call. registry_auto. Qed.

Lemma registry_on_connect rc : keeps registry (_on_connect rc).
Proof.
  unfold _on_connect, _resubscribe_all, _start_queue_processor.
  registry_auto.
Qed.

Lemma registry_reconnect_loop n :
  forall delay, keeps registry (reconnect_loop n delay).
Proof.
  induction n as [|n IH]; intros delay; cbn [reconnect_loop];
    repeat first
      [ apply IH
      | apply keeps_network_thread, registry_on_connect
      | registry_auto ].
Qed.

Lemma registry_on_disconnect n rc : keeps registry (_on_disconnect n rc).
Proof.
  unfold _on_disconnect, _stop_queue_processor, _handle_reconnect.
  repeat first [apply registry_reconnect_loop | registry_auto].
Qed.

Lemma registry_disconnect : keeps registry disconnect.
Proof. unfold disconnect, _stop_queue_processor. registry_auto. Qed.

Lemma registry_connect : keeps registry connect.
Proof.
  keeps_connect
    ltac:(registry_auto)
    ltac:(apply keeps_wait_for_connection;
          [apply registry_on_connect | reflexivity | reflexivity]).
Qed.

Lemma registry_reconnect : keeps registry reconnect.
Proof.
  unfold reconnect.
  apply keeps_bind; [apply registry_disconnect | intros _].
  apply keeps_bind; [registry_auto | intros _].
  apply registry_connect.
Qed.

Lemma well_formed_of_registry w w' :
  registry w' = registry w -> registry_well_formed w ->
  registry_well_formed w'.
Proof.
  unfold registry, registry_well_formed. intros H.
  inversion H as [[Hs Hw]]. now rewrite Hs, Hw.
Qed.

Lemma subscribe_well_formed w topic qos callback :
  registry_well_formed w ->
  registry_well_formed (exec (subscribe topic qos callback) w).
Proof.
  intros [Hnd [Hex Hwc]]. unfold registry_well_formed.
  destruct (has_wildcard topic) eqn:Hp.
  - pose proof (subscribe_wildcard w topic qos callback Hp) as H.
    unfold registry in H. inversion H as [[H1 H2]]. rewrite H1, H2.
    repeat split; try assumption.
    apply Forall_app. split; [assumption | repeat constructor; exact Hp].
  - pose proof (subscribe_exact w topic qos callback Hp) as H.
    unfold registry in H. inversion H as [[H1 H2]]. rewrite H1, H2.
    repeat split; try assumption.
    + now apply dict_nodup_set.
    + apply dict_forall_set; assumption.
Qed.

Lemma unsubscribe_well_formed w topic :
  registry_well_formed w ->
  registry_well_formed (exec (unsubscribe topic) w).
Proof.
  intros [Hnd [Hex Hwc]]. unfold registry_well_formed.
  pose proof (unsubscribe_registry w topic) as H.
  unfold registry in H. inversion H as [[H1 H2]]. rewrite H1, H2.
  repeat split.
  - now apply dict_nodup_del.
  - now apply dict_forall_del.
  - unfold without_pattern. apply Forall_forall. intros x Hx.
    apply filter_In in Hx. destruct Hx as [Hx _]. revert x Hx.
    now apply Forall_forall.
Qed.

Lemma step_well_formed a w :
  registry_well_formed w -> registry_well_formed (step a w).
Proof.
  intros Hw.
  assert (Hk : forall A (m : M A),
             keeps registry m -> registry_well_formed (exec m w))
    by (intros A m Hm; eapply well_formed_of_registry; [apply Hm | exact Hw]).
  destruct a; simpl.
  - apply Hk, registry_connect.
  - apply Hk, registry_disconnect.
  - apply Hk, registry_reconnect.
  - apply Hk, registry_publish.
  - now apply subscribe_well_formed.
  - now apply unsubscribe_well_formed.
  - apply Hk, registry_on_connect.
  - apply Hk, registry_on_disconnect.
  - apply Hk, registry_on_message.
  - destruct (queue_running w); [|exact Hw].
    apply Hk, registry_queue_iteration.
  - exact Hw.
Qed.

(** X10. In every world the client can reach, a subscription lives in
    exactly one store: the exact-topic dictionary holds each topic once and
    only topics without ['+'] or ['#']; the wildcard list holds only
    patterns with one.  Only [subscribe] and [unsubscribe] change the
    stores; connecting, disconnecting, reconnecting, publishing, dispatching
    and the queue worker leave them as they are. *)
Theorem registry_stays_well_formed :
  (forall w, reachable w -> registry_well_formed w)
  /\ (forall w topic,
         reachable w ->
         ~ (In topic (map fst (subscriptions w))
            /\ In topic (map fst (wildcard_callbacks w))))
  /\ (forall a w,
         (forall topic qos callback, a <> CallSubscribe topic qos callback) ->
         (forall topic, a <> CallUnsubscribe topic) ->
         registry (step a w) = registry w).
Proof.
  assert (Hreach : forall w, reachable w -> registry_well_formed w).
  { intros w H. induction H as [cfg now replies acks | a w Hr IH].
    - unfold registry_well_formed. cbn. repeat constructor.
    - now apply step_well_formed. }
  split; [exact Hreach | split].
  - intros w topic Hr [Hex Hwc].
    destruct (Hreach w Hr) as [_ [Hplain Hwild]].
    apply in_map_iff in Hex. destruct Hex as [item [<- Hitem]].
    apply in_map_iff in Hwc. destruct Hwc as [entry [Heq Hentry]].
    rewrite Forall_forall in Hplain, Hwild.
    specialize (Hplain item Hitem). specialize (Hwild entry Hentry).
    rewrite Heq in Hwild. congruence.
  - intros a w Hsub Hunsub. destruct a; simpl; unfold exec.
    + apply registry_connect.
    + apply registry_disconnect.
    + apply registry_reconnect.
    + apply registry_publish.
    + now destruct (Hsub topic qos callback).
    + now destruct (Hunsub topic).
    + apply registry_on_connect.
    + apply registry_on_disconnect.
    + apply registry_on_message.
    + destruct (queue_running w); [|reflexivity].
      apply registry_queue_iteration.
    + reflexivity.
Qed.

Lemma registry_stays_well_formed_witness :
  reachable Sample.two_subscribers
  /\ registry_well_formed Sample.two_subscribers.
Proof.
  assert (H : reachable Sample.two_subscribers).
  { unfold Sample.two_subscribers, run. cbn [fold_left].
    apply reachable_step, reachable_step, reachable_init. }
  split; [exact H | exact (proj1 registry_stays_well_formed _ H)].
Defined.

(** X11. In a well-formed registry, [unsubscribe] removes the registration
    of its topic for good: no exact subscription and no wildcard entry with
    that topic or pattern remains, so the callback registered under it is
    no longer the exact recipient; subscriptions to other topics are kept. *)
Theorem unsubscribe_removes_registration :
  forall w topic,
    registry_well_formed w ->
    let w' := exec (unsubscribe topic) w in
    Dict.get topic (subscriptions w') = None
    /\ exact_recipient w' topic = []
    /\ ~ In topic (map fst (wildcard_callbacks w'))
    /\ (forall other, other <> topic ->
          Dict.get other (subscriptions w') = Dict.get other (subscriptions w)).
Proof.
  intros w topic [Hnd _] w'.
  pose proof (unsubscribe_registry w topic) as H. fold w' in H.
  unfold registry in H. inversion H as [[Hs Hw]].
  unfold exact_recipient. rewrite Hs, Hw.
  rewrite dict_get_del_same by exact Hnd.
  repeat split.
  - apply without_pattern_spec.
  - intros other Hne. now apply dict_get_del_other.
Qed.

Lemma unsubscribe_removes_registration_witness :
  let w := Sample.two_subscribers in
  let w' := exec (unsubscribe "device/42/telemetry") w in
  registry_well_formed w
  /\ exact_recipient w "device/42/telemetry" = [cb_id Sample.broken]
  /\ exact_recipient w' "device/42/telemetry" = [].
Proof.
  assert (Hwf : registry_well_formed Sample.two_subscribers).
  { unfold registry_well_formed. cbn. repeat constructor. cbn. tauto. }
  split; [exact Hwf | split; [reflexivity|]].
  exact (proj1 (proj2 (unsubscribe_removes_registration
                         Sample.two_subscribers "device/42/telemetry" Hwf))).
Defined.

(** X12. A subscription is registered locally before the transport is
    asked, and stays registered when the transport refuses: on a connected
    client whose subscribe request is rejected or raises, [subscribe]
    returns False, yet the callback is in the registry (a raised call also
    counts one error). *)
Theorem failed_subscribe_still_registers :
  forall w topic qos callback,
    connected w = true ->
    ~ accepts_call w (calls w) ->
    let r := subscribe topic qos callback w in
    fst r = Return false
    /\ (has_wildcard topic = true ->
        wildcard_callbacks (snd r)
        = wildcard_callbacks w ++ [(topic, callback)])
    /\ (has_wildcard topic = false ->
        Dict.get topic (subscriptions (snd r))
        = Some {| Subscription.topic := topic; Subscription.qos := qos;
                  Subscription.callback := callback |})
    /\ (broker w (calls w) = Fault ->
        Stats.errors (stats (snd r)) = Stats.errors (stats w) + 1).
Proof.
  intros w topic qos callback Hc Hrej r. subst r. split; [|split; [|split]].
  - unfold subscribe. unfold accepts_call in Hrej. unfold_monad.
    destruct (has_wildcard topic); cbn; rewrite Hc; cbn;
      (destruct (broker w (calls w)) as [rc|] eqn:Hb; cbn; [|reflexivity]);
      (destruct (rc =? MQTT_ERR_SUCCESS) eqn:Hrc; cbn; [|reflexivity]);
      apply Z.eqb_eq in Hrc; subst rc; contradiction.
  - intros Hp. pose proof (subscribe_wildcard w topic qos callback Hp) as H.
    unfold registry, exec in H. now inversion H.
  - intros Hp. pose proof (subscribe_exact w topic qos callback Hp) as H.
    unfold registry, exec in H. inversion H as [[H1 H2]].
    rewrite H1. apply dict_get_set_same.
  - intros Hb. unfold subscribe. unfold_monad.
    destruct (has_wildcard topic); cbn; rewrite Hc; cbn; rewrite Hb;
      reflexivity.
Qed.

Lemma failed_subscribe_still_registers_witness :
  let w := Sample.online Sample.faulty [] 0 in
  let r := subscribe "sensors/#" 1 (Some Sample.steady) w in
  connected w = true
  /\ fst r = Return false
  /\ wildcard_callbacks (snd r) = [("sensors/#", Some Sample.steady)].
Proof.
  split; [reflexivity|].
  pose proof (failed_subscribe_still_registers
                (Sample.online Sample.faulty [] 0)
                "sensors/#" 1 (Some Sample.steady) eq_refl) as H.
  assert (Hrej : ~ accepts_call (Sample.online Sample.faulty [] 0)
                     (calls (Sample.online Sample.faulty [] 0)))
    by (unfold accepts_call; cbn; discriminate).
  specialize (H Hrej).
  split; [exact (proj1 H) | exact (proj1 (proj2 H) eq_refl)].
Defined.

(** X13. Likewise [unsubscribe] removes the local registration first: on a
    connected client whose unsubscribe request is rejected or raises it
    returns False, and the topic is gone from both stores all the same. *)
Theorem failed_unsubscribe_still_removes :
  forall w topic,
    connected w = true ->
    ~ accepts_call w (calls w) ->
    let r := unsubscribe topic w in
    fst r = Return false
    /\ subscriptions (snd r) = Dict.del topic (subscriptions w)
    /\ wildcard_callbacks (snd r)
       = without_pattern topic (wildcard_callbacks w).
Proof.
  intros w topic Hc Hrej r. subst r. split.
  - unfold unsubscribe. unfold accepts_call in Hrej. unfold_monad. cbn.
    rewrite Hc. cbn.
    destruct (broker w (calls w)) as [rc|] eqn:Hb; cbn; [|reflexivity].
    destruct (rc =? MQTT_ERR_SUCCESS) eqn:Hrc; cbn; [|reflexivity].
    apply Z.eqb_eq in Hrc. subst rc. contradiction.
  - pose proof (unsubscribe_registry w topic) as H.
    unfold registry, exec in H. inversion H as [[H1 H2]].
    split; reflexivity.
Qed.

Lemma failed_unsubscribe_still_removes_witness :
  let w := set_connected true Sample.wildcard_first_unreachable in
  let r := unsubscribe "sensors/+" w in
  connected w = true
  /\ fst r = Return false
  /\ wildcard_callbacks (snd r) = [].
Proof.
  split; [reflexivity|].
  assert (Hrej : ~ accepts_call
                     (set_connected true Sample.wildcard_first_unreachable)
                     (calls (set_connected true
                               Sample.wildcard_first_unreachable)))
    by (unfold accepts_call; cbn; discriminate).
  pose proof (failed_unsubscribe_still_removes
                (set_connected true Sample.wildcard_first_unreachable)
                "sensors/+" eq_refl Hrej) as H.
  split; [exact (proj1 H) | exact (proj2 (proj2 H))].
Defined.

(** ** The bounded queue *)

Lemma preserves_for_each (I : World -> Prop) {A} (xs : list A) body :
  (forall x, preserves I (body x)) -> preserves I (for_each xs body).
Proof.
  intros Hb. induction xs as [|x xs IH]; simpl;
    [apply preserves_ret | apply preserves_bind; auto].
Qed.

Lemma capacity_of_view w w' :
  queue_view w' = queue_view w -> within_capacity w -> within_capacity w'.
Proof.
  unfold queue_view, within_capacity. intros H. inversion H as [[Hc Hq]].
  now rewrite Hc, Hq.
Qed.

Lemma capacity_of_keeps {A} (m : M A) :
  keeps queue_view m -> preserves within_capacity m.
Proof. intros H w Hw. eapply capacity_of_view; [apply H | exact Hw]. Qed.

Lemma capacity_put_nowait message : preserves within_capacity (put_nowait message).
Proof.
  intros w Hw. unfold put_nowait, bind, gets, raise, modify.
  destruct (queue_full w) eqn:Hf; cbn; [exact Hw|].
  unfold within_capacity, queue_full in *. cbn. intros Hpos.
  rewrite length_app. cbn.
  apply Z.ltb_lt in Hpos. rewrite Hpos in Hf. cbn in Hf.
  apply Z.leb_gt in Hf. lia.
Qed.

Lemma capacity_put message : preserves within_capacity (put message).
Proof.
  intros w Hw. unfold put, bind, gets, pending, modify.
  destruct (queue_full w) eqn:Hf; cbn; [exact Hw|].
  unfold within_capacity, queue_full in *. cbn. intros Hpos.
  rewrite length_app. cbn.
  apply Z.ltb_lt in Hpos. rewrite Hpos in Hf. cbn in Hf.
  apply Z.leb_gt in Hf. lia.
Qed.

Lemma capacity_get timeout : preserves within_capacity (get timeout).
Proof.
  intros w Hw. unfold get, bind, gets, raise, modify, ret.
  destruct (message_queue w) as [|message rest] eqn:Hq; cbn.
  - unfold within_capacity in *. cbn. exact Hw.
  - unfold within_capacity in *. cbn. intros Hpos. specialize (Hw Hpos).
    rewrite Hq in Hw. cbn [List.length] in Hw. lia.
Qed.

Lemma view_client req : keeps queue_view (client req).
Proof. apply keeps_client. reflexivity. Qed.

Ltac view_auto :=
  repeat first
    [ apply view_client
    | unfold time_time, time_sleep, time_nap, json_loads, log, bump, emit;
      keeps_step ].

Ltac capacity_auto :=
  repeat first
    [ apply capacity_put_nowait | apply capacity_put | apply capacity_get
    | apply preserves_bind; [|intros ?]
    | apply preserves_try; [|intros ?]
    | apply preserves_ret | apply preserves_pending
    | match goal with
      | |- preserves _ (if ?b then _ else _) => destruct b
      | |- preserves _ (match ?x with _ => _ end) => destruct x
      end
    | apply capacity_of_keeps; solve [view_auto] ].

Lemma capacity_queue_message topic payload qos retain :
  preserves within_capacity (_queue_message topic payload qos retain).
Proof. unfold _queue_message. capacity_auto. Qed.

Lemma capacity_publish topic payload qos retain :
  preserves within_capacity (publish topic payload qos retain).
Proof.
  unfold publish, to_payload_str.
  repeat first [apply capacity_queue_message | capacity_auto].
Qed.

Lemma capacity_queue_iteration : preserves within_capacity queue_iteration.
Proof. unfold queue_iteration. capacity_auto. Qed.

Lemma view_subscribe topic qos callback :
  keeps queue_view (subscribe topic qos callback).
Proof. unfold subscribe. view_auto. Qed.

Lemma view_unsubscribe topic : keeps queue_view (unsubscribe topic).
Proof. unfold unsubscribe. view_auto. Qed.

Lemma view_on_message message : keeps queue_view (_on_message message).
Proof. unfold _on_message, call. view_auto. Qed.

Lemma view_on_connect rc : keeps queue_view (_on_connect rc).
Proof.
  unfold _on_connect, _resubscribe_all, _start_queue_processor. view_auto.
Qed.

Lemma view_reconnect_loop n :
  forall delay, keeps queue_view (reconnect_loop n delay).
Proof.
  induction n as [|n IH]; intros delay; cbn [reconnect_loop];
    repeat first
      [ apply IH
      | apply keeps_network_thread, view_on_connect
      | view_auto ].
Qed.

Lemma view_on_disconnect n rc : keeps queue_view (_on_disconnect n rc).
Proof.
  unfold _on_disconnect, _stop_queue_processor, _handle_reconnect.
  repeat first [apply view_reconnect_loop | view_auto].
Qed.

Lemma view_disconnect : keeps queue_view disconnect.
Proof. unfold disconnect, _stop_queue_processor. view_auto. Qed.

Lemma view_connect : keeps queue_view connect.
Proof.
  keeps_connect
    ltac:(view_auto)
    ltac:(apply keeps_wait_for_connection;
          [apply view_on_connect | reflexivity | reflexivity]).
Qed.

Lemma view_reconnect : keeps queue_view reconnect.
Proof.
  unfold reconnect.
  apply keeps_bind; [apply view_disconnect | intros _].
  apply keeps_bind; [view_auto | intros _].
  apply view_connect.
Qed.

Lemma step_within_capacity a w :
  within_capacity w -> within_capacity (step a w).
Proof.
  intros Hw. destruct a; simpl.
  - now apply (capacity_of_keeps _ view_connect).
  - now apply (capacity_of_keeps _ view_disconnect).
  - now apply (capacity_of_keeps _ view_reconnect).
  - now apply capacity_publish.
  - now apply (capacity_of_keeps _ (view_subscribe topic qos callback)).
  - now apply (capacity_of_keeps _ (view_unsubscribe topic)).
  - now apply (capacity_of_keeps _ (view_on_connect rc)).
  - now apply (capacity_of_keeps _ (view_on_disconnect iterations rc)).
  - now apply (capacity_of_keeps _ (view_on_message message)).
  - destruct (queue_running w); [|exact Hw].
    now apply capacity_queue_iteration.
  - exact Hw.
Qed.

Lemma config_publish topic payload qos retain :
  keeps config (publish topic payload qos retain).
Proof.
  unfold publish, to_payload_str, _queue_message.
  repeat first [apply keeps_client; reflexivity | keeps_prim].
Qed.

Lemma config_queue_iteration : keeps config queue_iteration.
Proof.
  unfold queue_iteration.
  repeat first [apply keeps_client; reflexivity | keeps_prim].
Qed.

Lemma step_config a w : config (step a w) = config w.
Proof.
  assert (Hv : forall A (m : M A),
             keeps queue_view m -> config (exec m w) = config w).
  { intros A m Hm. specialize (Hm w). unfold queue_view in Hm.
    now inversion Hm. }
  destruct a; simpl.
  - apply Hv, view_connect.
  - apply Hv, view_disconnect.
  - apply Hv, view_reconnect.
  - apply config_publish.
  - apply Hv, view_subscribe.
  - apply Hv, view_unsubscribe.
  - apply Hv, view_on_connect.
  - apply Hv, view_on_disconnect.
  - apply Hv, view_on_message.
  - destruct (queue_running w); [|reflexivity]. apply config_queue_iteration.
  - reflexivity.
Qed.

(** X14. The queue never outgrows its capacity and the configuration is
    never changed: in every world the client can reach, with a positive
    [queue_size], the ['queue_size'] entry that [get_stats] reports lies
    between 0 and the configured [queue_size]; and no call, callback or
    worker iteration alters the configuration. *)
Theorem queue_stays_within_capacity :
  (forall w, reachable w -> within_capacity w)
  /\ (forall w,
         reachable w ->
         0 < MQTTConfig.queue_size (config w) ->
         exists depth,
           Dict.get "queue_size" (get_stats w) = Some depth
           /\ depth = Z.of_nat (List.length (message_queue w))
           /\ 0 <= depth <= MQTTConfig.queue_size (config w))
  /\ (forall a w, config (step a w) = config w).
Proof.
  assert (Hreach : forall w, reachable w -> within_capacity w).
  { intros w H. induction H as [cfg now replies acks | a w Hr IH].
    - unfold within_capacity. cbn. lia.
    - now apply step_within_capacity. }
  split; [exact Hreach | split; [|apply step_config]].
  intros w Hr Hpos. eexists. split; [|split; [reflexivity|]].
  - unfold get_stats. apply dict_get_set_same.
  - specialize (Hreach w Hr Hpos). lia.
Qed.

Lemma queue_stays_within_capacity_witness :
  let w := run [CallPublish "plant/line" (Scalar "m1") 1 false;
                CallPublish "plant/line" (Scalar "m2") 1 false;
                CallPublish "plant/line" (Scalar "m3") 1 false]
               (init Sample.small_queue 0 Sample.accepting Sample.silent) in
  reachable w /\ within_capacity w.
Proof.
  assert (H : reachable
                (run [CallPublish "plant/line" (Scalar "m1") 1 false;
                      CallPublish "plant/line" (Scalar "m2") 1 false;
                      CallPublish "plant/line" (Scalar "m3") 1 false]
                   (init Sample.small_queue 0 Sample.accepting
                         Sample.silent))).
  { unfold run. cbn [fold_left].
    apply reachable_step, reachable_step, reachable_step, reachable_init. }
  split; [exact H | exact (proj1 queue_stays_within_capacity _ H)].
Defined.

(** ** More on the queue worker *)

Lemma queue_iteration_empty w :
  message_queue w = [] ->
  queue_iteration w
  = (Return tt, set_clock (clock w + inject_Z 1)%Q w).
Proof.
  intros Hq. unfold queue_iteration. unfold_monad. cbn. rewrite Hq.
  reflexivity.
Qed.

Lemma queue_iteration_fault w message rest :
  message_queue w = message :: rest ->
  too_old w message (clock w) = false ->
  connected w = true ->
  broker w (calls w) = Fault ->
  queue_iteration w
  = (Return tt,
     set_clock (clock w + inject_Z 1)%Q
       (set_trace (trace w ++ [Transport (request_of message) Fault;
                               Log logging.ERROR "Queue processing error";
                               Sleep 1])
          (set_calls (S (calls w)) (set_message_queue rest w)))).
Proof.
  intros Hq Hold Hc Hb. unfold queue_iteration, too_old in *.
  unfold_monad. cbn. rewrite Hq. cbn. rewrite Hold. cbn. rewrite Hc. cbn.
  rewrite Hb. cbn. rewrite <- !app_assoc. reflexivity.
Qed.

(** The two parts of an iteration, run one after the other, are the
    iteration. *)
Lemma queue_iteration_in_two_parts w :
  queue_iteration w
  = (back <- queue_take ;;
     match back with
     | Some message => queue_put_back message
     | None => ret tt
     end) w.
Proof.
  unfold queue_iteration, queue_take, queue_put_back. unfold_monad. cbn.
  destruct (message_queue w) as [|message rest]; cbn; [reflexivity|].
  destruct (Qgtb (clock w - QueuedMessage.timestamp message)
                 (inject_Z (MQTTConfig.message_timeout (config w)))); cbn;
    [reflexivity|].
  destruct (connected w); cbn.
  - destruct (broker w (calls w)) as [rc|]; cbn; [|reflexivity].
    destruct (rc =? MQTT_ERR_SUCCESS); cbn; reflexivity.
  - reflexivity.
Qed.

Lemma queue_take_offline w message rest :
  message_queue w = message :: rest ->
  too_old w message (clock w) = false ->
  connected w = false ->
  queue_take w = (Return (Some message), set_message_queue rest w).
Proof.
  intros Hq Hold Hc. unfold queue_take, too_old in *. unfold_monad. cbn.
  rewrite Hq. cbn. rewrite Hold. cbn. rewrite Hc. reflexivity.
Qed.

Lemma queue_put_back_full w message :
  queue_full w = true -> queue_put_back message w = (Pending, w).
Proof.
  intros Hfull. unfold queue_put_back. unfold_monad. cbn.
  now rewrite Hfull.
Qed.

Lemma try_except_never_raises {A} (m : M A) handler :
  (forall e w, exists a, fst (handler e w) = Return a) ->
  forall w e, fst (try_except m handler w) <> Raise e.
Proof.
  intros Hh w e. unfold try_except.
  destruct (m w) as [[a | e' |] w1]; cbn; try discriminate.
  destruct (Hh e' w1) as [a Ha]. rewrite Ha. discriminate.
Qed.

(** X15. No exception escapes an iteration of the queue worker, whatever
    the state of the client and the replies of the transport.  On an empty
    queue it only waits out the one-second timeout: nothing is sent, logged
    or counted.  Putting a message back can block: when the worker has taken
    a message from a full queue of a disconnected client and [publish] runs
    on another thread before the worker puts the message back, the queue is
    full again and the worker stays blocked, whereas the iteration run
    without interruption returns. *)
Theorem worker_iteration_never_raises :
  (forall w e, fst (queue_iteration w) <> Raise e)
  /\ (forall w,
         message_queue w = [] ->
         fst (queue_iteration w) = Return tt
         /\ trace (exec queue_iteration w) = trace w
         /\ stats (exec queue_iteration w) = stats w
         /\ message_queue (exec queue_iteration w) = []
         /\ clock (exec queue_iteration w) = (clock w + inject_Z 1)%Q)
  /\ (forall w message rest topic payload text qos retain,
         message_queue w = message :: rest ->
         too_old w message (clock w) = false ->
         connected w = false ->
         MQTTConfig.queue_size (config w)
         = Z.of_nat (List.length (message :: rest)) ->
         rendering payload = Some text ->
         let w1 := exec queue_take w in
         let w2 := exec (publish topic payload qos retain) w1 in
         fst (queue_take w) = Return (Some message)
         /\ message_queue w2 = rest ++ [queued topic text qos retain (clock w)]
         /\ queue_put_back message w2 = (Pending, w2)
         /\ fst (queue_iteration w) = Return tt).
Proof.
  split; [|split].
  - intros w e. unfold queue_iteration.
    apply try_except_never_raises. intros e' w'. now exists tt.
  - intros w Hq. unfold exec. rewrite queue_iteration_empty by exact Hq.
    cbn. rewrite Hq. repeat split; reflexivity.
  - intros w message rest topic payload text qos retain Hq Hold Hc Hsize
      Hrender w1 w2. subst w1 w2. unfold exec.
    rewrite (queue_take_offline w message rest Hq Hold Hc). cbn [fst snd].
    assert (Hroom : queue_full (set_message_queue rest w) = false).
    { unfold queue_full. cbn. rewrite Hsize. cbn [List.length].
      apply andb_false_iff. right. apply Z.leb_gt. lia. }
    rewrite (publish_disconnected_room _ topic payload text qos retain)
      by (try exact Hroom; assumption).
    cbn [fst snd].
    split; [reflexivity | split; [reflexivity | split]].
    + apply queue_put_back_full. unfold queue_full. cbn.
      rewrite Hsize, length_app. cbn [List.length].
      apply andb_true_iff. split; [apply Z.ltb_lt | apply Z.leb_le]; lia.
    + rewrite (queue_iteration_offline w message rest Hq Hold Hc);
        [reflexivity|].
      unfold within_capacity. rewrite Hq, Hsize. lia.
Qed.

Lemma worker_iteration_never_raises_witness :
  let w := Sample.backlog in
  let w1 := exec queue_take w in
  let w2 := exec (publish "plant/line" (Scalar "m3") 1 false) w1 in
  message_queue w = [Sample.m1; Sample.m2]
  /\ connected w = false
  /\ fst (queue_take w) = Return (Some Sample.m1)
  /\ message_queue w2 = [Sample.m2; Sample.m3]
  /\ queue_put_back Sample.m1 w2 = (Pending, w2)
  /\ fst (queue_iteration w) = Return tt.
Proof.
  split; [reflexivity | split; [reflexivity|]].
  exact (proj2 (proj2 worker_iteration_never_raises)
           Sample.backlog Sample.m1 [Sample.m2] "plant/line" (Scalar "m3")
           "m3" 1 false eq_refl eq_refl eq_refl eq_refl eq_refl).
Defined.

(** X16. When the transport raises while the worker sends a queued message,
    that message is lost: it has been taken from the queue and is not put
    back, nothing is sent and [messages_sent] is unchanged; the worker logs
    an ERROR line and sleeps one second. *)
Theorem worker_loses_message_on_transport_fault :
  forall w message rest,
    message_queue w = message :: rest ->
    too_old w message (clock w) = false ->
    connected w = true ->
    broker w (calls w) = Fault ->
    let w' := exec queue_iteration w in
    message_queue w' = rest
    /\ sent (trace w') = sent (trace w)
    /\ stats w' = stats w
    /\ logged logging.ERROR (trace w')
       = logged logging.ERROR (trace w) ++ ["Queue processing error"]
    /\ slept w' = slept w ++ [1].
Proof.
  intros w message rest Hq Hold Hc Hb w'. subst w'. unfold exec.
  rewrite (queue_iteration_fault w message rest) by assumption.
  unfold slept. cbn. rewrite sent_app, logged_app, sleeps_app. cbn.
  rewrite app_nil_r. repeat split; reflexivity.
Qed.

Lemma worker_loses_message_on_transport_fault_witness :
  let w := Sample.online Sample.faulty [Sample.m1; Sample.m2] 0 in
  let w' := exec queue_iteration w in
  broker w (calls w) = Fault
  /\ message_queue w' = [Sample.m2]
  /\ sent (trace w') = sent (trace w).
Proof.
  split; [reflexivity|].
  pose proof (worker_loses_message_on_transport_fault
                (Sample.online Sample.faulty [Sample.m1; Sample.m2] 0)
                Sample.m1 [Sample.m2] eq_refl eq_refl eq_refl eq_refl) as H.
  split; [exact (proj1 H) | exact (proj1 (proj2 H))].
Defined.

Lemma process_queue_drains messages : forall w,
  message_queue w = messages ->
  queue_running w = true ->
  connected w = true ->
  (forall m, In m messages -> too_old w m (clock w) = false) ->
  (forall k, (k < List.length messages)%nat -> accepts_call w (calls w + k)) ->
  exists w',
    _process_queue (List.length messages) w = (Pending, w')
    /\ sent (trace w') = sent (trace w) ++ map request_of messages
    /\ message_queue w' = []
    /\ Stats.messages_sent (stats w')
       = Stats.messages_sent (stats w) + Z.of_nat (List.length messages).
Proof.
  induction messages as [|m rest IH]; intros w Hq Hrun Hc Hyoung Hacc.
  - exists w. cbn [List.length]. rewrite process_queue_observed by exact Hrun.
    cbn. rewrite app_nil_r, Z.add_0_r. repeat split; auto.
  - cbn [List.length].
    assert (Hfirst : accepts_call w (calls w)).
    { specialize (Hacc 0%nat). rewrite Nat.add_0_r in Hacc. apply Hacc.
      cbn. lia. }
    rewrite (process_queue_step _ w _ Hrun
               (queue_iteration_sent w m rest Hq
                  (Hyoung m (or_introl eq_refl)) Hc Hfirst)).
    match goal with
    | |- context [_process_queue _ ?w1] =>
        destruct (IH w1) as [w' [Heq [Hsent [Hempty Hcount]]]]
    end.
    + reflexivity.
    + exact Hrun.
    + exact Hc.
    + intros m' Hin. apply (Hyoung m'). now right.
    + intros k Hk. specialize (Hacc (S k)). cbn in *.
      rewrite Nat.add_succ_r in Hacc. apply Hacc. lia.
    + exists w'. split; [exact Heq|]. cbn in Hsent, Hcount.
      rewrite Hsent, Hcount, sent_app. cbn.
      rewrite <- app_assoc. repeat split; try assumption; try reflexivity.
      lia.
Qed.

(** X17. When nothing fails the queue is drained in FIFO order: on a
    connected client with the worker running, messages none of which has
    expired and a transport that accepts each send, the worker sends the
    queued messages in the order they were queued, one per iteration,
    leaves the queue empty and counts each in [messages_sent]. *)
Theorem worker_drains_in_fifo_order :
  forall w,
    queue_running w = true ->
    connected w = true ->
    (forall m, In m (message_queue w) -> too_old w m (clock w) = false) ->
    (forall k, (k < List.length (message_queue w))%nat ->
               accepts_call w (calls w + k)) ->
    let w' := exec (_process_queue (List.length (message_queue w))) w in
    sent (trace w') = sent (trace w) ++ map request_of (message_queue w)
    /\ message_queue w' = []
    /\ Stats.messages_sent (stats w')
       = Stats.messages_sent (stats w)
         + Z.of_nat (List.length (message_queue w)).
Proof.
  intros w Hrun Hc Hyoung Hacc w'. subst w'. unfold exec.
  destruct (process_queue_drains (message_queue w) w eq_refl Hrun Hc
              Hyoung Hacc) as [w' [Heq H]].
  rewrite Heq. exact H.
Qed.

Lemma worker_drains_in_fifo_order_witness :
  let w := Sample.online Sample.accepting
             [Sample.m1; Sample.m2; Sample.m3] 0 in
  let w' := exec (_process_queue 3) w in
  queue_running w = true
  /\ sent (trace w')
     = [request_of Sample.m1; request_of Sample.m2; request_of Sample.m3]
  /\ message_queue w' = [].
Proof.
  split; [reflexivity|].
  assert (H : let w := Sample.online Sample.accepting
                         [Sample.m1; Sample.m2; Sample.m3] 0 in
              let w' := exec (_process_queue
                                (List.length (message_queue w))) w in
              sent (trace w')
              = sent (trace w) ++ map request_of (message_queue w)
              /\ message_queue w' = []
              /\ Stats.messages_sent (stats w')
                 = Stats.messages_sent (stats w)
                   + Z.of_nat (List.length (message_queue w))).
  { apply worker_drains_in_fifo_order.
    - reflexivity.
    - reflexivity.
    - intros m [<- | [<- | [<- | []]]]; reflexivity.
    - intros k _. reflexivity. }
  split; [exact (proj1 H) | exact (proj1 (proj2 H))].
Defined.

(** ** What the statistics count *)

Lemma surplus_modify g :
  (forall w, trace (g w) = trace w) -> (forall w, stats (g w) = stats w) ->
  keeps sent_surplus (modify g).
Proof. intros Ht Hs w. unfold sent_surplus. cbn. now rewrite Ht, Hs. Qed.

Lemma surplus_emit ev :
  sent [ev] = [] -> keeps sent_surplus (emit ev).
Proof.
  intros H w. unfold sent_surplus. cbn. now rewrite sent_app, H, app_nil_r.
Qed.

Lemma surplus_bump f :
  (forall s, Stats.messages_sent (f s) = Stats.messages_sent s) ->
  keeps sent_surplus (bump f).
Proof. intros H w. unfold sent_surplus. cbn. now rewrite H. Qed.

Lemma surplus_client req :
  (forall reply, sent [Transport req reply] = []) ->
  keeps sent_surplus (client req).
Proof.
  intros H w. unfold client, sent_surplus.
  destruct (broker w (calls w)) as [rc|] eqn:Hb; cbn;
    rewrite sent_app, H, app_nil_r; reflexivity.
Qed.

(** A publish request followed by the test of its result code: the counter
    and the accepted requests move together. *)
Lemma surplus_send {A} topic payload qos retain (ok fail : M A) :
  (forall w, sent_surplus (snd (ok w)) = sent_surplus w + 1) ->
  keeps sent_surplus fail ->
  keeps sent_surplus
    (rc <- client (Publish topic payload qos retain) ;;
     if rc =? MQTT_ERR_SUCCESS then ok else fail).
Proof.
  intros Hok Hfail w. unfold bind, client.
  destruct (broker w (calls w)) as [rc|] eqn:Hb; cbn.
  - destruct (rc =? MQTT_ERR_SUCCESS) eqn:Hrc.
    + rewrite Hok. unfold sent_surplus. cbn. rewrite sent_app. cbn.
      rewrite Hrc, length_app. cbn. lia.
    + rewrite Hfail. unfold sent_surplus. cbn. rewrite sent_app. cbn.
      now rewrite Hrc, app_nil_r.
  - unfold sent_surplus. cbn. rewrite sent_app. cbn. now rewrite app_nil_r.
Qed.

Ltac surplus_leaf :=
  first
    [ apply surplus_client; intros ?; reflexivity
    | apply surplus_emit; reflexivity
    | apply surplus_bump; intros ?; reflexivity
    | apply surplus_modify; intros ?; reflexivity ].

Ltac surplus_auto :=
  unfold time_time, time_sleep, time_nap, json_loads, put_nowait, put, get,
    log;
  repeat first [surplus_leaf | keeps_step].

Lemma surplus_queue_message topic payload qos retain :
  keeps sent_surplus (_queue_message topic payload qos retain).
Proof. unfold _queue_message. surplus_auto. Qed.

Lemma surplus_publish topic payload qos retain :
  keeps sent_surplus (publish topic payload qos retain).
Proof.
  unfold publish, to_payload_str.
  apply keeps_try; [|intros ?; surplus_auto].
  apply keeps_bind; [surplus_auto | intros text].
  apply keeps_bind; [surplus_auto | intros c]. destruct c.
  - apply surplus_send.
    + intros w. unfold sent_surplus. cbn. lia.
    + apply keeps_bind; [surplus_auto | intros _].
      apply keeps_bind; [apply surplus_queue_message | intros _].
      apply keeps_ret.
  - apply keeps_bind; [apply surplus_queue_message | intros _].
    apply keeps_ret.
Qed.

Lemma surplus_queue_iteration : keeps sent_surplus queue_iteration.
Proof.
  unfold queue_iteration.
  apply keeps_try; [|intros ?; surplus_auto].
  apply keeps_bind; [surplus_auto | intros got].
  destruct got as [message|]; [|apply keeps_ret].
  apply keeps_bind; [surplus_auto | intros now].
  apply keeps_bind; [surplus_auto | intros timeout].
  destruct (Qgtb _ _); [surplus_auto|].
  apply keeps_bind; [surplus_auto | intros c]. destruct c.
  - apply surplus_send.
    + intros w. unfold sent_surplus. cbn. lia.
    + surplus_auto.
  - surplus_auto.
Qed.

Lemma surplus_subscribe topic qos callback :
  keeps sent_surplus (subscribe topic qos callback).
Proof. unfold subscribe. surplus_auto. Qed.

Lemma surplus_unsubscribe topic : keeps sent_surplus (unsubscribe topic).
Proof. unfold unsubscribe. surplus_auto. Qed.

Lemma surplus_on_message message : keeps sent_surplus (_on_message message).
Proof. unfold _on_message, call. surplus_auto. Qed.

Lemma surplus_on_connect rc : keeps sent_surplus (_on_connect rc).
Proof.
  unfold _on_connect, _resubscribe_all, _start_queue_processor.
  surplus_auto.
Qed.

Lemma surplus_reconnect_loop n :
  forall delay, keeps sent_surplus (reconnect_loop n delay).
Proof.
  induction n as [|n IH]; intros delay; cbn [reconnect_loop];
    repeat first
      [ apply IH
      | apply keeps_network_thread, surplus_on_connect
      | surplus_auto ].
Qed.

Lemma surplus_on_disconnect n rc : keeps sent_surplus (_on_disconnect n rc).
Proof.
  unfold _on_disconnect, _stop_queue_processor, _handle_reconnect.
  repeat first [apply surplus_reconnect_loop | surplus_auto].
Qed.

Lemma surplus_disconnect : keeps sent_surplus disconnect.
Proof. unfold disconnect, _stop_queue_processor. surplus_auto. Qed.

Lemma surplus_wait_for_connection timeout :
  keeps sent_surplus (wait_for_connection timeout).
Proof.
  apply keeps_wait_for_connection;
    [apply surplus_on_connect | | reflexivity].
  intros w seconds. unfold sent_surplus. cbn. rewrite sent_app. cbn.
  now rewrite app_nil_r.
Qed.

Lemma surplus_connect : keeps sent_surplus connect.
Proof.
  keeps_connect
    ltac:(surplus_auto) ltac:(apply surplus_wait_for_connection).
Qed.

Lemma surplus_reconnect : keeps sent_surplus reconnect.
Proof.
  unfold reconnect.
  apply keeps_bind; [apply surplus_disconnect | intros _].
  apply keeps_bind; [surplus_auto | intros _].
  apply surplus_connect.
Qed.

Lemma step_surplus a w : sent_surplus (step a w) = sent_surplus w.
Proof.
  destruct a; simpl.
  - apply surplus_connect.
  - apply surplus_disconnect.
  - apply surplus_reconnect.
  - apply surplus_publish.
  - apply surplus_subscribe.
  - apply surplus_unsubscribe.
  - apply surplus_on_connect.
  - apply surplus_on_disconnect.
  - apply surplus_on_message.
  - destruct (queue_running w); [apply surplus_queue_iteration | reflexivity].
  - reflexivity.
Qed.

(** X18. [messages_sent] counts exactly the publish requests that the
    transport accepted, whether they were made by [publish] directly or by
    the queue worker: in every world the client can reach, the counter
    equals the number of accepted publish requests in the trace. *)
Theorem messages_sent_counts_accepted_publishes :
  forall w,
    reachable w ->
    Stats.messages_sent (stats w) = Z.of_nat (List.length (sent (trace w))).
Proof.
  intros w H.
  assert (Hs : sent_surplus w = 0).
  { induction H as [cfg now replies acks | a w Hr IH]; [reflexivity|].
    now rewrite step_surplus. }
  unfold sent_surplus in Hs. lia.
Qed.

Lemma messages_sent_counts_accepted_publishes_witness :
  let w := step (CallPublish "plant/line" (Scalar "on") 1 false)
                (step (NetOnConnect 0) Sample.fresh_client) in
  reachable w
  /\ Stats.messages_sent (stats w) = 1
  /\ Stats.messages_sent (stats w) = Z.of_nat (List.length (sent (trace w))).
Proof.
  assert (H : reachable
                (step (CallPublish "plant/line" (Scalar "on") 1 false)
                      (step (NetOnConnect 0) Sample.fresh_client)))
    by (apply reachable_step, reachable_step, reachable_init).
  split; [exact H | split; [reflexivity|]].
  exact (messages_sent_counts_accepted_publishes _ H).
Defined.

Lemma stats_le_refl s : stats_le s s.
Proof. unfold stats_le. lia. Qed.

Lemma stats_le_trans s1 s2 s3 :
  stats_le s1 s2 -> stats_le s2 s3 -> stats_le s1 s3.
Proof. unfold stats_le. lia. Qed.

Lemma grows_of_keeps {A} (m : M A) : keeps stats m -> grows m.
Proof. intros H w. rewrite H. apply stats_le_refl. Qed.

Lemma grows_bind {A B} (m : M A) (k : A -> M B) :
  grows m -> (forall a, grows (k a)) -> grows (bind m k).
Proof.
  intros Hm Hk w. unfold bind. specialize (Hm w).
  destruct (m w) as [[a | e |] w1]; simpl in *; try assumption.
  eapply stats_le_trans; [exact Hm | apply Hk].
Qed.

Lemma grows_try {A} (m : M A) handler :
  grows m -> (forall e, grows (handler e)) -> grows (try_except m handler).
Proof.
  intros Hm Hh w. unfold try_except. specialize (Hm w).
  destruct (m w) as [[a | e |] w1]; simpl in *; try assumption.
  eapply stats_le_trans; [exact Hm | apply Hh].
Qed.

Lemma grows_for_each {A} (xs : list A) body :
  (forall x, grows (body x)) -> grows (for_each xs body).
Proof.
  intros Hb. induction xs as [|x xs IH]; simpl.
  - intros w. apply stats_le_refl.
  - apply grows_bind; auto.
Qed.

Lemma grows_bump f :
  (forall s, stats_le s (f s)) -> grows (bump f).
Proof. intros H w. cbn. apply H. Qed.

Lemma stats_client req : keeps stats (client req).
Proof. apply keeps_client. reflexivity. Qed.

Ltac grows_leaf :=
  first
    [ apply grows_bump; intros ?; unfold stats_le; cbn; lia
    | apply grows_of_keeps, stats_client
    | apply grows_of_keeps;
      solve [unfold time_time, time_sleep, time_nap, json_loads, put_nowait,
               put, get, log, emit;
             repeat keeps_step] ].

Ltac grows_auto :=
  repeat first
    [ grows_leaf
    | apply grows_bind; [|intros ?]
    | apply grows_try; [|intros ?]
    | apply grows_for_each; intros ?
    | match goal with
      | |- grows (if ?b then _ else _) => destruct b
      | |- grows (match ?x with _ => _ end) => destruct x
      end ].

Lemma grows_queue_message topic payload qos retain :
  grows (_queue_message topic payload qos retain).
Proof. unfold _queue_message. grows_auto. Qed.

Lemma grows_publish topic payload qos retain :
  grows (publish topic payload qos retain).
Proof.
  unfold publish, to_payload_str.
  repeat first [apply grows_queue_message | grows_auto].
Qed.

Lemma grows_subscribe topic qos callback : grows (subscribe topic qos callback).
Proof. unfold subscribe. grows_auto. Qed.

Lemma grows_unsubscribe topic : grows (unsubscribe topic).
Proof. unfold unsubscribe. grows_auto. Qed.

Lemma grows_queue_iteration : grows queue_iteration.
Proof. unfold queue_iteration. grows_auto. Qed.

Lemma grows_on_message message : grows (_on_message message).
Proof. unfold _on_message, call. grows_auto. Qed.

Lemma grows_on_connect rc : grows (_on_connect rc).
Proof.
  unfold _on_connect, _resubscribe_all, _start_queue_processor. grows_auto.
Qed.

Lemma grows_network_thread : grows network_thread.
Proof.
  intros w. unfold network_thread.
  destruct (connack w (calls w)); simpl;
    [apply grows_on_connect | apply stats_le_refl].
Qed.

Lemma grows_reconnect_loop n : forall delay, grows (reconnect_loop n delay).
Proof.
  induction n as [|n IH]; intros delay; cbn [reconnect_loop];
    repeat first [apply IH | apply grows_network_thread | grows_auto].
Qed.

Lemma grows_on_disconnect n rc : grows (_on_disconnect n rc).
Proof.
  unfold _on_disconnect, _stop_queue_processor, _handle_reconnect.
  repeat first [apply grows_reconnect_loop | grows_auto].
Qed.

Lemma grows_disconnect : grows disconnect.
Proof. unfold disconnect, _stop_queue_processor. grows_auto. Qed.

Lemma grows_wait_for_connection timeout : grows (wait_for_connection timeout).
Proof.
  unfold wait_for_connection.
  apply grows_bind; [apply grows_of_keeps, keeps_gets | intros start_time].
  apply grows_bind; [apply grows_network_thread | intros _].
  apply grows_of_keeps, keeps_poll_connected; reflexivity.
Qed.

Lemma grows_connect : grows connect.
Proof.
  unfold connect.
  apply grows_try; [|intros ?; grows_auto].
  apply grows_bind; [apply grows_of_keeps, keeps_gets | intros [|]];
    [grows_auto|].
  apply grows_bind; [grows_auto | intros _].
  apply grows_bind; [apply grows_of_keeps, keeps_gets | intros ?].
  apply grows_bind; [grows_auto | intros _].
  apply grows_bind; [grows_auto | intros _].
  apply grows_bind; [apply grows_wait_for_connection | intros _].
  grows_auto.
Qed.

Lemma grows_reconnect : grows reconnect.
Proof.
  unfold reconnect.
  apply grows_bind; [apply grows_disconnect | intros _].
  apply grows_bind; [grows_auto | intros _].
  apply grows_connect.
Qed.

Lemma step_grows a w : stats_le (stats w) (stats (step a w)).
Proof.
  destruct a; simpl.
  - apply grows_connect.
  - apply grows_disconnect.
  - apply grows_reconnect.
  - apply grows_publish.
  - apply grows_subscribe.
  - apply grows_unsubscribe.
  - apply grows_on_connect.
  - apply grows_on_disconnect.
  - apply grows_on_message.
  - destruct (queue_running w);
      [apply grows_queue_iteration | apply stats_le_refl].
  - apply stats_le_refl.
Qed.

(** X19. The statistics are monotonic counters: no call on the client, no
    callback from the network and no worker iteration ever lowers or resets
    [messages_sent], [messages_received], [messages_queued],
    [reconnect_count] or [errors]; in particular disconnecting and
    reconnecting keep the counts. *)
Theorem statistics_never_decrease :
  forall actions w, stats_le (stats w) (stats (run actions w)).
Proof.
  induction actions as [|a actions IH]; intros w; cbn.
  - apply stats_le_refl.
  - eapply stats_le_trans; [apply step_grows | apply IH].
Qed.

(** ** Disconnection and what follows it *)

Lemma stop_queue_processor_halts w :
  queue_running (snd (_stop_queue_processor w)) = false
  /\ fst (_stop_queue_processor w) = Return tt.
Proof.
  unfold _stop_queue_processor. unfold_monad. cbn.
  now destruct (queue_thread w).
Qed.

Lemma disconnect_halts w : queue_running (snd (disconnect w)) = false.
Proof.
  unfold disconnect, _stop_queue_processor. unfold_monad. cbn.
  destruct (queue_thread w); cbn;
    destruct (broker w (calls w)); cbn;
    try destruct (broker w (S (calls w))); reflexivity.
Qed.

Lemma process_queue_stopped n w :
  queue_running w = false -> _process_queue n w = (Return tt, w).
Proof.
  intros H. destruct n; cbn [_process_queue]; unfold_monad; now rewrite H.
Qed.

(** X20. [disconnect()] discards nothing: the queued messages are all
    still in the queue afterwards, in the same order, and the worker loop,
    at its next check of [queue_running], exits without taking or sending
    any of them. *)
Theorem disconnect_keeps_queued_messages :
  forall w n,
    let w' := exec disconnect w in
    message_queue w' = message_queue w
    /\ _process_queue n w' = (Return tt, w').
Proof.
  intros w n w'. split.
  - pose proof (view_disconnect w) as H. unfold queue_view in H.
    now inversion H.
  - apply process_queue_stopped. apply disconnect_halts.
Qed.

(** X21. [_on_disconnect] starts the reconnection loop only for an
    unexpected loss (rc other than 0) with [auto_reconnect] enabled.  After
    a graceful disconnect, or with [auto_reconnect] off, it returns having
    made no transport request and leaving [reconnect_count] alone; the
    worker is stopped, [connected] is False, and the state is DISCONNECTED
    for rc 0 and RECONNECTING otherwise. *)
Theorem on_disconnect_without_reconnection :
  forall n rc w,
    MQTTConfig.auto_reconnect (config w) = false \/ rc = 0 ->
    let r := _on_disconnect n rc w in
    fst r = Return tt
    /\ connected (snd r) = false
    /\ state (snd r) = (if rc =? 0 then ConnectionState.DISCONNECTED
                        else ConnectionState.RECONNECTING)
    /\ queue_running (snd r) = false
    /\ requests (trace (snd r)) = requests (trace w)
    /\ reconnects (snd r) = reconnects w.
Proof.
  intros n rc w Hno r. subst r.
  unfold _on_disconnect, _stop_queue_processor, reconnects.
  unfold_monad. cbn.
  destruct Hno as [Hauto | ->].
  - destruct (rc =? 0); cbn; destruct (queue_thread w); cbn;
      rewrite Hauto; cbn;
      rewrite ?requests_app; cbn; rewrite ?requests_app; cbn;
      rewrite ?app_nil_r; repeat split; reflexivity.
  - cbn. destruct (queue_thread w); cbn; rewrite andb_false_r; cbn;
      rewrite ?requests_app; cbn; rewrite ?app_nil_r;
      repeat split; reflexivity.
Qed.

Lemma on_disconnect_without_reconnection_witness :
  let w := Sample.online Sample.accepting [Sample.m1] 0 in
  let r := _on_disconnect 5 0 w in
  fst r = Return tt
  /\ state (snd r) = ConnectionState.DISCONNECTED
  /\ requests (trace (snd r)) = requests (trace w).
Proof.
  pose proof (on_disconnect_without_reconnection 5 0
                (Sample.online Sample.accepting [Sample.m1] 0)
                (or_intror eq_refl)) as H.
  split; [exact (proj1 H)|].
  split; [exact (proj1 (proj2 (proj2 H)))
         | exact (proj1 (proj2 (proj2 (proj2 (proj2 H)))))].
Defined.

(** X22. The reconnection loop gives up only on success: no exception
    escapes [_handle_reconnect], and when it returns (with [auto_reconnect]
    enabled) the client is connected.  Until then it keeps retrying. *)
Theorem handle_reconnect_returns_connected :
  forall n w,
    (forall e, fst (_handle_reconnect n w) <> Raise e)
    /\ (MQTTConfig.auto_reconnect (config w) = true ->
        fst (_handle_reconnect n w) = Return tt ->
        connected (snd (_handle_reconnect n w)) = true).
Proof.
  intros n w. rewrite handle_reconnect_unfold.
  set (w0 := set_stats (Stats.incr_reconnect_count (stats w)) w).
  destruct (reconnect_loop_exit n (MQTTConfig.reconnect_delay (config w)) w0)
    as [r [w' [Heq [_ Hres]]]].
  rewrite Heq. cbn [fst snd]. split.
  - intros e He. subst r. exact Hres.
  - intros Hauto Hret. subst r.
    destruct Hres as [Hoff | Hon]; [|exact Hon].
    cbn in Hoff. congruence.
Qed.

Lemma handle_reconnect_returns_connected_witness :
  MQTTConfig.auto_reconnect (config Sample.dropped) = true
  /\ fst (_handle_reconnect 10 Sample.dropped) = Return tt
  /\ connected (snd (_handle_reconnect 10 Sample.dropped)) = true.
Proof.
  split; [reflexivity | split; [reflexivity|]].
  exact (proj2 (handle_reconnect_returns_connected 10 Sample.dropped)
           eq_refl eq_refl).
Defined.

(** ** More on the dispatch of inbound messages *)

Lemma invoked_with_app tr1 tr2 :
  invoked_with (tr1 ++ tr2) = invoked_with tr1 ++ invoked_with tr2.
Proof.
  induction tr1 as [|ev tr1 IH]; [reflexivity|]. simpl.
  destruct ev; simpl; congruence.
Qed.

Lemma invoked_with_call_events label callback topic data :
  invoked_with (call_events label callback topic data)
  = map (fun _ => (topic, data)) (callable callback).
Proof.
  destruct callback as [cb|]; cbn; [|reflexivity].
  now destruct (cb_run cb topic data).
Qed.

Lemma invoked_with_dispatch w topic data :
  invoked_with (dispatch_events w topic data)
  = map (fun _ => (topic, data)) (recipients w topic).
Proof.
  unfold dispatch_events, recipients, exact_events, exact_recipient.
  rewrite invoked_with_app, map_app. f_equal.
  - destruct (Dict.get topic (subscriptions w)) as [sub|]; [|reflexivity].
    destruct (Subscription.callback sub) as [cb|]; [|reflexivity].
    apply invoked_with_call_events.
  - unfold wildcard_events, wildcard_recipients.
    induction (wildcard_callbacks w) as [|entry entries IH]; [reflexivity|].
    cbn [flat_map]. rewrite invoked_with_app, map_app, IH. f_equal.
    destruct (_topic_matches topic (fst entry)); [|reflexivity].
    apply invoked_with_call_events.
Qed.

(** X23. A message whose payload is not valid UTF-8 reaches no callback:
    [_on_message] returns, counts one error, logs one ERROR line and does
    not count the message as received. *)
Theorem undecodable_message_is_not_dispatched :
  forall w message,
    MQTTMessage.decoded message = None ->
    let r := _on_message message w in
    fst r = Return tt
    /\ invocations (trace (snd r)) = invocations (trace w)
    /\ Stats.errors (stats (snd r)) = Stats.errors (stats w) + 1
    /\ Stats.messages_received (stats (snd r))
       = Stats.messages_received (stats w)
    /\ logged logging.ERROR (trace (snd r))
       = logged logging.ERROR (trace w) ++ ["Message processing error"].
Proof.
  intros w message Hd r. subst r.
  rewrite (on_message_undecodable w message Hd). cbn.
  rewrite invocations_app, logged_app. cbn. rewrite app_nil_r.
  repeat split; reflexivity.
Qed.

Lemma undecodable_message_is_not_dispatched_witness :
  let garbled := {| MQTTMessage.topic := "device/42/telemetry";
                    MQTTMessage.decoded := None;
                    MQTTMessage.parsed := json.NotJson |} in
  let r := _on_message garbled Sample.two_subscribers in
  fst r = Return tt
  /\ invocations (trace (snd r)) = invocations (trace Sample.two_subscribers).
Proof.
  pose proof (undecodable_message_is_not_dispatched Sample.two_subscribers
                {| MQTTMessage.topic := "device/42/telemetry";
                   MQTTMessage.decoded := None;
                   MQTTMessage.parsed := json.NotJson |} eq_refl) as H.
  split; [exact (proj1 H) | exact (proj1 (proj2 H))].
Defined.

(** X24. What the callbacks are called with, for a message whose payload
    decodes.  When [json.loads] returns, every callback registered for the
    topic is called with the topic and the parsed value; when it raises
    [JSONDecodeError], with the topic and the decoded text; when it raises
    another exception, no callback is called. *)
Theorem callbacks_receive_parsed_or_raw_payload :
  forall w message text,
    MQTTMessage.decoded message = Some text ->
    let w' := exec (_on_message message) w in
    let topic := MQTTMessage.topic message in
    (forall value,
        MQTTMessage.parsed message = json.Value value ->
        invoked_with (trace w')
        = invoked_with (trace w)
          ++ map (fun _ => (topic, Parsed value)) (recipients w topic))
    /\ (MQTTMessage.parsed message = json.NotJson ->
        invoked_with (trace w')
        = invoked_with (trace w)
          ++ map (fun _ => (topic, Text text)) (recipients w topic))
    /\ (MQTTMessage.parsed message = json.Refused ->
        invoked_with (trace w') = invoked_with (trace w)).
Proof.
  intros w message text Hd w' topic. subst w' topic. unfold exec.
  split; [|split].
  - intros value Hp.
    rewrite (on_message_dispatched w message (Parsed value))
      by (unfold payload_data; now rewrite Hd, Hp).
    cbn. now rewrite invoked_with_app, invoked_with_dispatch.
  - intros Hp.
    rewrite (on_message_dispatched w message (Text text))
      by (unfold payload_data; now rewrite Hd, Hp).
    cbn. now rewrite invoked_with_app, invoked_with_dispatch.
  - intros Hp. rewrite (on_message_refused w message text Hd Hp). cbn.
    rewrite invoked_with_app. cbn. apply app_nil_r.
Qed.

Lemma callbacks_receive_parsed_or_raw_payload_witness :
  let w' := exec (_on_message Sample.reading) Sample.two_subscribers in
  MQTTMessage.decoded Sample.reading = Some "21.5"
  /\ MQTTMessage.parsed Sample.reading = json.Value "21.5"
  /\ invoked_with (trace w')
     = [("device/42/telemetry", Parsed "21.5");
        ("device/42/telemetry", Parsed "21.5")].
Proof.
  split; [reflexivity | split; [reflexivity|]].
  exact (proj1 (callbacks_receive_parsed_or_raw_payload
                  Sample.two_subscribers Sample.reading "21.5" eq_refl)
           "21.5" eq_refl).
Defined.

